(** * The database facade of strapi and the UID service built on it

    A shallow embedding of [Database] (constructor, [query], [transaction],
    [getConnection], [getSchemaConnection], [queryBuilder], [destroy]) and of
    the content-manager UID service ([findUniqueUID],
    [checkUIDAvailability]), with the properties the specification states
    about them. *)

From stdpp Require Import base gmap strings list pretty.

Set Warnings "-register-all".

(** ** JavaScript values *)

(** The fragment of JavaScript values the modelled code handles: primitives
    and plain objects, an object being a finite map from property names. *)
Inductive jsval : Type :=
| JUndefined
| JNull
| JBool (b : bool)
| JNum (n : Z)
| JStr (s : string)
| JObject (fields : gmap string jsval).

Abbreviation jsobj := (gmap string jsval).

(** [o[k]] on a plain object: a missing property reads as [undefined]. *)
Definition js_prop (o : jsobj) (k : string) : jsval :=
  default JUndefined (o !! k).

(** The classes of the errors the code and its collaborators raise: the
    built-in [Error] and [TypeError] and the taxonomy of the design. *)
Inductive error_class : Type :=
| Error
| TypeError
| UnknownModelError
| SchemaError
| ConnectionError
| TransactionError
| MigrationError.

Record exn : Type := mkExn { exn_class : error_class; exn_message : string }.

Global Instance error_class_eq_dec : EqDecision error_class.
Proof. solve_decision. Defined.
Global Instance exn_eq_dec : EqDecision exn.
Proof. solve_decision. Defined.

(** A call either returns or throws (an [async] function: resolves or
    rejects). *)
Inductive result (A : Type) : Type :=
| Ok (a : A)
| Thrown (e : exn).
Global Arguments Ok {A} a.
Global Arguments Thrown {A} e.

Definition is_ok {A} (r : result A) : bool :=
  match r with Ok _ => true | Thrown _ => false end.

(** [v.k] for any value: reading a property of [undefined] or [null] is a
    [TypeError], a primitive has no own properties. *)
Definition js_get (v : jsval) (k : string) : result jsval :=
  match v with
  | JObject o => Ok (js_prop o k)
  | JUndefined | JNull =>
      Thrown (mkExn TypeError ("Cannot read properties of undefined (reading '" +:+ k +:+ "')"))
  | _ => Ok JUndefined
  end.

(** ** The world the facade runs in *)

(** A transaction handle of the driver, named by the order of creation. *)
Definition handle := nat.

(** Calls that leave the facade, as a recording driver would log them. *)
Inductive event : Type :=
| EvCreateMetadata
| EvGetDialect
| EvDialectConfigure
| EvCreateConnection (settings : jsval)
| EvDialectInitialize
| EvCreateSchemaProvider
| EvCreateMigrationsProvider
| EvCreateLifecyclesProvider
| EvCreateEntityManager
| EvBegin (trx : handle)
| EvCommit (trx : handle)
| EvRollback (trx : handle)
| EvLifecyclesClear
| EvConnectionDestroy
| EvNote (tag : string).

(** [ambient] is the store of the transaction context, [next_handle] the
    driver's supply of handles, [trace] the calls made so far. *)
Record world : Type := World {
  ambient : option handle;
  next_handle : handle;
  trace : list event
}.

Definition set_ambient (o : option handle) (w : world) : world :=
  World o (next_handle w) (trace w).

Definition log (e : event) (w : world) : world :=
  World (ambient w) (next_handle w) (trace w ++ [e]).

(** Code with effects: it reads and updates the world and returns or throws. *)
Definition M (A : Type) : Type := world → result A * world.

Definition ret {A} (a : A) : M A := λ w, (Ok a, w).

Definition throw {A} (e : exn) : M A := λ w, (Thrown e, w).

Definition bind {A B} (m : M A) (k : A → M B) : M B :=
  λ w, match m w with
       | (Ok a, w') => k a w'
       | (Thrown e, w') => (Thrown e, w')
       end.

(** [try { body } catch (error) { handler }] *)
Definition try_catch {A} (body : M A) (handler : exn → M A) : M A :=
  λ w, match body w with
       | (Ok a, w') => (Ok a, w')
       | (Thrown e, w') => handler e w'
       end.

Declare Scope js_scope.
Delimit Scope js_scope with js.
Notation "x <- m ;; k" := (bind m (λ x, k))
  (at level 100, m at next level, right associativity) : js_scope.
Notation "m ;;; k" := (bind m (λ _, k))
  (at level 100, right associativity) : js_scope.
Local Open Scope js_scope.

(** [when c m]: [if (c) { await m }] *)
Definition when (c : bool) (m : M unit) : M unit := if c then m else ret ().

(** [f?.()] where the value [f] returns is dropped. *)
Definition opt_call (f : option (M unit)) : M unit :=
  match f with Some f => f | None => ret () end.

(** ** Collaborators of the facade *)

(** A filter of a repository query: [{ [field]: { $contains: value } }] and
    [{ [field]: value }]. *)
Inductive where_clause : Type :=
| WhereContains (field value : string)
| WhereEquals (field value : string).

(** The per-entity surface the entity manager hands out. *)
Record Repository : Type := mkRepository {
  findMany : where_clause → result (list jsobj);
  count : where_clause → result nat
}.

(** The modules [Database] requires and that are outside this development:
    their types and the values they build. Which of their calls throw is
    left to the oracle of section [Facade]. *)
Class Collaborators : Type := {
  Meta : Type;
  Dialect : Type;
  Connection : Type;
  SchemaProvider : Type;
  MigrationsProvider : Type;
  LifecyclesProvider : Type;
  EntityManager : Type;
  QueryBuilder : Type;
  QueryEntry : Type;
  SchemaBuilder : Type;
  createMetadata : jsval → gmap string Meta;
  getDialect : jsobj → Dialect;
  dialect_configure : Dialect → jsobj → jsobj;
  createConnection : jsval → Connection;
  createSchemaProvider : gmap string Meta → Connection → SchemaProvider;
  createMigrationsProvider : jsobj → Connection → MigrationsProvider;
  createLifecyclesProvider : gmap string Meta → LifecyclesProvider;
  createEntityManager : gmap string Meta → Connection → EntityManager;
  getRepository : EntityManager → string → Repository;
  createQueryBuilder : EntityManager → string → QueryBuilder;
  getSchemaName : Connection → option string;
  connection_root : Connection → QueryEntry;
  connection_table : Connection → string → QueryEntry;
  withSchema : QueryEntry → string → QueryEntry;
  schema_builder : Connection → option handle → SchemaBuilder;
  schema_withSchema : SchemaBuilder → string → SchemaBuilder
}.

(** The fields of a [Database] object. *)
Record Database `{Collaborators} : Type := mkDatabase {
  metadata : gmap string Meta;
  config : jsobj;
  dialect : Dialect;
  connection : Connection;
  schema : SchemaProvider;
  migrations : MigrationsProvider;
  lifecycles : LifecyclesProvider;
  entityManager : EntityManager
}.

(** ** The facade *)

Section Facade.
Context `{Collaborators}.

(** The oracle: whether the external call [e], made after the calls of
    the trace, throws, and what. *)
Context (fails : event → list event → option exn).

(** An external call that yields [v] when it returns. Every invocation is
    recorded, also one that throws. *)
Definition ext_call {A} (e : event) (v : A) : M A :=
  λ w, match fails e (trace w) with
       | Some x => (Thrown x, log e w)
       | None => (Ok v, log e w)
       end.

(** *** Transaction context *)

(** Modelled from the spec: module [./transaction-context] is missing.
    [get()] returns the ambient handle or none. *)
Definition ctx_get : M (option handle) := λ w, (Ok (ambient w), w).

(** Modelled from the spec: module [./transaction-context] is missing.
    [run(handle, fn)] establishes [handle] as the ambient transaction for
    the dynamic extent of [fn] and restores the prior ambient value on
    every exit path, including thrown errors. *)
Definition ctx_run {A} (trx : handle) (fn : M A) : M A :=
  λ w, let '(r, w') := fn (set_ambient (Some trx) w) in
       (r, set_ambient (ambient w) w').

(** *** Driver *)

(** [connection.transaction()]: a handle that was not given out before.
    The trace records the handles that were opened. *)
Definition connection_transaction : M handle :=
  λ w, let trx := next_handle w in
       match fails (EvBegin trx) (trace w) with
       | Some x => (Thrown x, w)
       | None => (Ok trx, World (ambient w) (S trx) (trace w ++ [EvBegin trx]))
       end.

Definition trx_commit (trx : handle) : M unit := ext_call (EvCommit trx) ().

Definition trx_rollback (trx : handle) : M unit := ext_call (EvRollback trx) ().

(** *** [new Database(config)] *)

(** [config.settings.forceMigration], as a reader of the option evaluates
    it on a configuration object. *)
Definition forceMigration (config : jsobj) : result jsval :=
  js_get (js_prop config "settings") "forceMigration".

(** The literal the constructor spreads [config] over. *)
Definition default_config : jsobj :=
  {[ "connection" := JObject ∅;
     "settings" := JObject {[ "forceMigration" := JBool true ]} ]}.

(** [{ connection: {}, settings: { forceMigration: true }, ...config }]:
    every own property of [config] replaces the default of that name. *)
Definition spread_config (cfg : jsobj) : jsobj := cfg ∪ default_config.

Definition constructor (cfg : jsobj) : M Database :=
  metadata <- ext_call EvCreateMetadata (createMetadata (js_prop cfg "models")) ;;
  let config := spread_config cfg in
  dialect <- ext_call EvGetDialect (getDialect config) ;;
  config <- ext_call EvDialectConfigure (dialect_configure dialect config) ;;
  connection <- ext_call (EvCreateConnection (js_prop config "connection"))
                  (createConnection (js_prop config "connection")) ;;
  ext_call EvDialectInitialize () ;;;
  schema <- ext_call EvCreateSchemaProvider (createSchemaProvider metadata connection) ;;
  migrations <- ext_call EvCreateMigrationsProvider (createMigrationsProvider config connection) ;;
  lifecycles <- ext_call EvCreateLifecyclesProvider (createLifecyclesProvider metadata) ;;
  entityManager <- ext_call EvCreateEntityManager (createEntityManager metadata connection) ;;
  ret (mkDatabase _ metadata config dialect connection schema migrations lifecycles
         entityManager).


(** *** [query(uid)] *)

Definition query (db : Database) (uid : string) : result Repository :=
  if negb (bool_decide (is_Some (metadata db !! uid)))
  then Thrown (mkExn Error ("Model " +:+ uid +:+ " not found"))
  else Ok (getRepository (entityManager db) uid).

(** *** [transaction(cb, { onError, onSuccess })] *)

(** The object a call without callback returns. *)
Record ManualHandle : Type := mkManualHandle {
  mh_commit : M unit;
  mh_rollback : M unit;
  mh_get : handle
}.

Inductive tx_return (A : Type) : Type :=
| TxManual (t : ManualHandle)
| TxResult (res : A).
Global Arguments TxManual {A} t.
Global Arguments TxResult {A} res.

(** The [catch] block of the function below. *)
Definition scope_catch {A} (notNestedTransaction : bool) (trx : handle)
    (onError : option (M unit)) (error : exn) : M (tx_return A) :=
  when notNestedTransaction (trx_rollback trx) ;;;
  opt_call onError ;;;
  throw error.

(** The function [transaction] hands to [transactionCtx.run]. *)
Definition transaction_scope {A} (notNestedTransaction : bool) (trx : handle)
    (cb : handle → M A) (onError onSuccess : option (M unit)) : M (tx_return A) :=
  try_catch
    (res <- cb trx ;;
     when notNestedTransaction (trx_commit trx) ;;;
     opt_call onSuccess ;;;
     ret (TxResult res))
    (scope_catch notNestedTransaction trx onError).

Definition transaction {A} (db : Database) (cb : option (handle → M A))
    (onError onSuccess : option (M unit)) : M (tx_return A) :=
  current <- ctx_get ;;
  let notNestedTransaction := negb (bool_decide (is_Some current)) in
  (* the second [transactionCtx.get()] reads the store the first one read *)
  trx <- match current with
         | None => connection_transaction
         | Some trx => ret trx
         end ;;
  match cb with
  | None =>
      ret (TxManual {|
        mh_commit := when notNestedTransaction (trx_commit trx);
        mh_rollback := when notNestedTransaction (trx_rollback trx);
        mh_get := trx |})
  | Some cb =>
      ctx_run trx (transaction_scope notNestedTransaction trx cb onError onSuccess)
  end.

(** *** [getConnection], [getSchemaConnection], [queryBuilder] *)

(** A schema name counts when it is a non-empty string. *)
Definition truthy_name (o : option string) : option string :=
  match o with
  | Some s => if decide (s = "") then None else Some s
  | None => None
  end.

Definition getConnection (db : Database) (tableName : option string) : QueryEntry :=
  let schema := getSchemaName (connection db) in
  let connection :=
    match truthy_name tableName with
    | Some t => connection_table (connection db) t
    | None => connection_root (connection db)
    end in
  match truthy_name schema with
  | Some s => withSchema connection s
  | None => connection
  end.

Definition getSchemaConnection (db : Database) (trx : option handle) : SchemaBuilder :=
  let schema := getSchemaName (connection db) in
  match truthy_name schema with
  | Some s => schema_withSchema (schema_builder (connection db) trx) s
  | None => schema_builder (connection db) trx
  end.

Definition queryBuilder (db : Database) (uid : string) : QueryBuilder :=
  createQueryBuilder (entityManager db) uid.

(** *** [destroy()] *)

Definition destroy (db : Database) : M unit :=
  ext_call EvLifecyclesClear () ;;;
  ext_call EvConnectionDestroy ().


(** ** Callers of [transaction] *)

(** What user code does with the object of a call without callback. *)
Inductive manual_op : Type := OpCommit | OpRollback.

(** User code of one call chain: it returns, throws, performs an action of
    its own ([Note]: a query, a write), sequences, catches, and calls
    [db.transaction], with a callback and hooks or without. It leaves
    committing and rolling back to the facade: on the handle it is given
    it calls neither. *)
Inductive code : Type :=
| Return (v : jsval)
| Throw (e : exn)
| Note (tag : string)
| Seq (c : code) (k : jsval → code)
| TryCatch (c : code) (handler : exn → code)
| Transaction (cb : handle → code) (onError onSuccess : option code)
| ManualTransaction (ops : list manual_op).

Definition run_op (t : ManualHandle) (op : manual_op) : M unit :=
  match op with
  | OpCommit => mh_commit t
  | OpRollback => mh_rollback t
  end.

Fixpoint run_ops (t : ManualHandle) (ops : list manual_op) : M unit :=
  match ops with
  | [] => ret ()
  | op :: ops => run_op t op ;;; run_ops t ops
  end.

(** A hook is called for its effects. *)
Definition as_hook (m : M jsval) : M unit := m ;;; ret ().

Fixpoint exec (db : Database) (c : code) : M jsval :=
  match c with
  | Return v => ret v
  | Throw e => throw e
  | Note tag => ext_call (EvNote tag) JUndefined
  | Seq c k => x <- exec db c ;; exec db (k x)
  | TryCatch c handler => try_catch (exec db c) (λ e, exec db (handler e))
  | Transaction cb onError onSuccess =>
      r <- transaction db (Some (λ trx, exec db (cb trx)))
             (match onError with Some c => Some (as_hook (exec db c)) | None => None end)
             (match onSuccess with Some c => Some (as_hook (exec db c)) | None => None end) ;;
      match r with
      | TxResult res => ret res
      | TxManual _ => ret JUndefined
      end
  | ManualTransaction ops =>
      r <- transaction (A := jsval) db None None None ;;
      match r with
      | TxManual t => run_ops t ops ;;; ret JUndefined
      | TxResult res => ret res
      end
  end.

(** ** The UID service *)

(** [possibleColisions.includes(tmpUId)] for a string [tmpUId]. *)
Definition includes (l : list jsval) (s : string) : bool :=
  existsb (λ v, match v with JStr s' => bool_decide (s' = s) | _ => false end) l.

(** [`${value}-${i}`] *)
Definition uid_candidate (value : string) (i : nat) : string :=
  value +:+ "-" +:+ pretty i.

(** The [while] loop of [findUniqueUID], entered with counter [i]; [fuel]
    bounds the number of times its condition is evaluated. *)
Fixpoint uid_loop (possibleColisions : list jsval) (value : string)
    (fuel i : nat) : option string :=
  match fuel with
  | 0 => None
  | S fuel =>
      let tmpUId := uid_candidate value i in
      if includes possibleColisions tmpUId
      then uid_loop possibleColisions value fuel (S i)
      else Some tmpUId
  end.

(** [None]: the loop did not end within [fuel]. *)
Definition findUniqueUID (fuel : nat) (db : Database)
    (contentTypeUID field value : string) : option (result string) :=
  match query db contentTypeUID with
  | Thrown e => Some (Thrown e)
  | Ok query =>
      match findMany query (WhereContains field value) with
      | Thrown e => Some (Thrown e)
      | Ok results =>
          let possibleColisions := map (λ result, js_prop result field) results in
          if Nat.eqb (length possibleColisions) 0
          then Some (Ok value)
          else Ok <$> uid_loop possibleColisions value fuel 1
      end
  end.

Definition checkUIDAvailability (db : Database)
    (contentTypeUID field value : string) : result bool :=
  match query db contentTypeUID with
  | Thrown e => Thrown e
  | Ok query =>
      match count query (WhereEquals field value) with
      | Thrown e => Thrown e
      | Ok count => if Nat.ltb 0 count then Ok false else Ok true
      end
  end.

(** ** The facade as an object *)

(** The calls a holder of the facade makes on it. *)
Inductive facade_call : Type :=
| CallQuery (uid : string)
| CallTransaction (cb : option (handle → code)) (onError onSuccess : option code)
| CallGetConnection (tableName : option string)
| CallGetSchemaConnection (trx : option handle)
| CallQueryBuilder (uid : string)
| CallDestroy.

(** One call, for its effects on the world; the result is dropped and a
    failure is left to the caller. *)
Definition invoke (db : Database) (c : facade_call) : M unit :=
  match c with
  | CallQuery uid => λ w, (match query db uid with Ok _ => Ok () | Thrown e => Thrown e end, w)
  | CallTransaction cb onError onSuccess =>
      transaction db
        (match cb with Some cb => Some (λ trx, exec db (cb trx)) | None => None end)
        (match onError with Some c => Some (as_hook (exec db c)) | None => None end)
        (match onSuccess with Some c => Some (as_hook (exec db c)) | None => None end) ;;;
      ret ()
  | CallGetConnection tableName => let _ := getConnection db tableName in ret ()
  | CallGetSchemaConnection trx => let _ := getSchemaConnection db trx in ret ()
  | CallQueryBuilder uid => let _ := queryBuilder db uid in ret ()
  | CallDestroy => destroy db
  end.

(** A holder that makes the calls one after the other and goes on after a
    failure. *)
Fixpoint run_calls (db : Database) (calls : list facade_call) : M unit :=
  match calls with
  | [] => ret ()
  | c :: calls => try_catch (invoke db c) (λ _, ret ()) ;;; run_calls db calls
  end.

End Facade.

(** ** An in-memory backend *)

(** Whether [needle] occurs in [s] as a substring. *)
Fixpoint contains_str (needle s : string) : bool :=
  String.prefix needle s ||
  match s with
  | EmptyString => false
  | String _ s' => contains_str needle s'
  end.

Definition row_matches (q : where_clause) (row : jsobj) : bool :=
  match q with
  | WhereContains field value =>
      match js_prop row field with
      | JStr s => contains_str value s
      | _ => false
      end
  | WhereEquals field value =>
      match js_prop row field with
      | JStr s => bool_decide (s = value)
      | _ => false
      end
  end.

(** Modelled from the spec: the entity manager is missing. A repository
    over the stored rows of one entity, whose contains filter is a substring
    match and whose filtering has no side effect. *)
Definition table_repository (rows : list jsobj) : Repository :=
  {| findMany q := Ok (List.filter (row_matches q) rows);
     count q := Ok (length (List.filter (row_matches q) rows)) |}.

(** Collaborators that keep the rows of every entity in a map; the other
    modules carry no data. *)
Definition mem_collaborators : Collaborators :=
  {| Meta := unit;
     Dialect := jsval;
     Connection := jsval;
     SchemaProvider := unit;
     MigrationsProvider := unit;
     LifecyclesProvider := unit;
     EntityManager := gmap string (list jsobj);
     QueryBuilder := string;
     QueryEntry := option string * option string;
     SchemaBuilder := option handle * option string;
     createMetadata models :=
       match models with
       | JObject o => (λ _, ()) <$> o
       | _ => ∅
       end;
     getDialect config :=
       match js_prop config "connection" with
       | JObject c => js_prop c "client"
       | _ => JUndefined
       end;
     dialect_configure _ config := config;
     createConnection settings := settings;
     createSchemaProvider _ _ := ();
     createMigrationsProvider _ _ := ();
     createLifecyclesProvider _ := ();
     createEntityManager metadata _ := (λ _, []) <$> metadata;
     getRepository tables uid := table_repository (default [] (tables !! uid));
     createQueryBuilder _ uid := uid;
     getSchemaName _ := None;
     connection_root _ := (None, None);
     connection_table _ t := (Some t, None);
     withSchema q s := (q.1, Some s);
     schema_builder _ trx := (trx, None);
     schema_withSchema b s := (b.1, Some s) |}.

(** A facade over the in-memory backend with the given stored rows. *)
Definition mem_database (tables : gmap string (list jsobj)) : @Database mem_collaborators :=
  @mkDatabase mem_collaborators ((λ _, ()) <$> tables) (spread_config ∅) JUndefined
    (JObject ∅) () () () tables.

(** Modelled from the spec: the entity manager is missing. [create] stores
    one more row of entity [uid]. *)
Definition mem_create (uid : string) (row : jsobj)
    (tables : gmap string (list jsobj)) : gmap string (list jsobj) :=
  <[uid := default [] (tables !! uid) ++ [row]]> tables.

(** The oracle of a run in which no external call throws. *)
Definition no_faults : event → list event → option exn := λ _ _, None.

(** ** [generateUIDField] *)

(** The libraries [generateUIDField] calls: lodash's [_.get] and
    [_.isEmpty], and [slugify], which may throw. *)
Class UidLibs : Type := {
  lodash_get : jsval → jsval → jsval;
  lodash_isEmpty : jsval → bool;
  slugify : jsval → jsval → result string
}.

(** An entry of [strapi.contentTypes]. *)
Record ContentType : Type := mkContentType {
  modelName : jsval;
  attributes : jsobj
}.

(** The operand of [||] that counts as true. *)
Definition js_truthy (v : jsval) : bool :=
  match v with
  | JUndefined | JNull => false
  | JBool b => b
  | JNum n => negb (Z.eqb n 0)
  | JStr s => negb (bool_decide (s = ""))
  | JObject _ => true
  end.

Section UidGeneration.
Context `{Collaborators} `{UidLibs}.

(** [strapi.contentTypes] is [contentTypes], [strapi.db] is [db]. *)
Definition generateUIDField (fuel : nat) (contentTypes : gmap string ContentType)
    (db : Database) (contentTypeUID field : string) (data : jsval) :
    option (result string) :=
  match contentTypes !! contentTypeUID with
  | None =>
      Some (Thrown (mkExn TypeError
        "Cannot destructure property 'attributes' of 'contentType' as it is undefined."))
  | Some contentType =>
      let attribute := js_prop (attributes contentType) field in
      match js_get attribute "targetField", js_get attribute "default",
            js_get attribute "options" with
      | Ok targetField, Ok defaultValue, Ok options =>
          let targetValue := lodash_get data targetField in
          if negb (lodash_isEmpty targetValue)
          then
            match slugify targetValue options with
            | Ok value => findUniqueUID fuel db contentTypeUID field value
            | Thrown e => Some (Thrown e)
            end
          else
            match slugify (if js_truthy defaultValue then defaultValue
                           else modelName contentType) options with
            | Ok value => findUniqueUID fuel db contentTypeUID field value
            | Thrown e => Some (Thrown e)
            end
      | Thrown e, _, _ | _, Thrown e, _ | _, _, Thrown e => Some (Thrown e)
      end
  end.

End UidGeneration.

(** ** The blocks editor *)

Module BlocksEditor.

Definition selectorBlockKeys : list string :=
  [ "paragraph"; "heading-one"; "heading-two"; "heading-three"; "heading-four";
    "heading-five"; "heading-six"; "list-ordered"; "list-unordered"; "image";
    "quote"; "code" ].

Definition isSelectorBlockKey (key : jsval) : bool :=
  match key with
  | JStr s => bool_decide (s ∈ selectorBlockKeys)
  | _ => false
  end.

(** [fns.reduce((prev, fn) => fn(prev), value)] *)
Definition pipe {Editor : Type} (fns : list (Editor → Editor)) (value : Editor) : Editor :=
  fold_left (λ prev fn, fn prev) fns value.

(** The two refs and the state of [useResetKey]. *)
Record ResetKey : Type := mkResetKey {
  slateUpdatesCount : nat;
  valueUpdatesCount : nat;
  key : nat
}.

(** The hook at its first render, before any effect ran. *)
Definition useResetKey_init : ResetKey := mkResetKey 0 0 0.

(** One run of the effect of [useResetKey], which React runs after the
    first render and after each render in which [value] changed. *)
Definition value_effect (s : ResetKey) : ResetKey :=
  let valueUpdatesCount := S (valueUpdatesCount s) in
  if bool_decide (valueUpdatesCount ≠ slateUpdatesCount s)
  then mkResetKey valueUpdatesCount valueUpdatesCount (S (key s))
  else mkResetKey (slateUpdatesCount s) valueUpdatesCount (key s).

Definition incrementSlateUpdatesCount (s : ResetKey) : ResetKey :=
  mkResetKey (S (slateUpdatesCount s)) (valueUpdatesCount s) (key s).

(** An operation of the Slate editor, by its [type]. *)
Record Operation : Type := mkOperation { op_type : string }.

(** The argument of [onChange]. *)
Record ChangeEvent (V : Type) : Type := mkChangeEvent {
  target_name : string;
  target_value : V;
  target_type : string
}.
Global Arguments mkChangeEvent {V} _ _ _.
Global Arguments target_name {V} _.
Global Arguments target_value {V} _.
Global Arguments target_type {V} _.

(** [handleSlateChange(state)] with [editor.operations] at hand: the refs
    after it and the calls of [onChange] it made. *)
Definition handleSlateChange {V : Type} (name : string) (operations : list Operation)
    (state : V) (s : ResetKey) : ResetKey * list (ChangeEvent V) :=
  let isAstChange :=
    existsb (λ op, negb (bool_decide (op_type op = "set_selection"))) operations in
  if isAstChange
  then (incrementSlateUpdatesCount s, [mkChangeEvent name state "blocks"])
  else (s, []).

End BlocksEditor.

(** * Vocabulary of the properties *)

(** ** Traces *)

(** [w'] has the trace of [w] followed by events that all satisfy [P]. *)
Definition extends (P : event → Prop) (w w' : world) : Prop :=
  ∃ evs, trace w' = trace w ++ evs ∧ Forall P evs.

(** Started with ambient handle [o], [m] ends with ambient handle [o], adds
    to the trace only events of [P], and returns only values of [Q]. *)
Definition sat {A} (P : event → Prop) (o : option handle) (m : M A)
    (Q : A → Prop) : Prop :=
  ∀ w, ambient w = o →
    ambient (m w).2 = o ∧ extends P w (m w).2 ∧ ∀ a, (m w).1 = Ok a → Q a.

Definition any {A} : A → Prop := λ _, True.

Definition is_note (e : event) : Prop :=
  match e with EvNote _ => True | _ => False end.

Definition is_tx (e : event) : Prop :=
  match e with EvBegin _ | EvCommit _ | EvRollback _ => True | _ => False end.

(** In a chain that starts with ambient handle [o], the facade may call
    the driver only when there is none. *)
Definition driver_allowed (P : event → Prop) (o : option handle) : Prop :=
  o = None → ∀ e, is_tx e → P e.

(** The operations of a manual handle add only events of [P]. *)
Definition handle_sat (P : event → Prop) (t : ManualHandle) : Prop :=
  ∀ o, sat P o (mh_commit t) any ∧ sat P o (mh_rollback t) any.

(** Calls of the driver on transaction handles, as a counting driver sees
    them. *)
Definition is_driver_event (e : event) : bool :=
  match e with
  | EvBegin _ | EvCommit _ | EvRollback _ => true
  | _ => false
  end.

(** [e] is a commit or a rollback of [trx]. *)
Definition finalizes (trx : handle) (e : event) : bool :=
  match e with
  | EvCommit t | EvRollback t => Nat.eqb t trx
  | _ => false
  end.

(** The handle a call of [transaction] made in world [w] works on, whether
    the call opened it, and the world once the call has it: the ambient
    handle, or one that [connection.transaction()] opens. [None] when
    opening throws. *)
Definition entered (fails : event → list event → option exn) (w : world) :
    option (bool * handle * world) :=
  match ambient w with
  | Some trx => Some (false, trx, w)
  | None =>
      match fails (EvBegin (next_handle w)) (trace w) with
      | Some _ => None
      | None =>
          Some (true, next_handle w,
                World None (S (next_handle w)) (trace w ++ [EvBegin (next_handle w)]))
      end
  end.

(** The external calls of a construction that runs to its end, in order;
    [createConnection] gets the connection settings as the dialect's
    [configure] left them. *)
Definition construction_calls `{Collaborators} (cfg : jsobj) : list event :=
  let config := spread_config cfg in
  let configured := dialect_configure (getDialect config) config in
  [ EvCreateMetadata; EvGetDialect; EvDialectConfigure;
    EvCreateConnection (js_prop configured "connection"); EvDialectInitialize;
    EvCreateSchemaProvider; EvCreateMigrationsProvider;
    EvCreateLifecyclesProvider; EvCreateEntityManager ].

Definition is_configure (e : event) : Prop :=
  match e with EvDialectConfigure => True | _ => False end.

Definition is_create_connection (e : event) : Prop :=
  match e with EvCreateConnection _ => True | _ => False end.

Definition is_initialize (e : event) : Prop :=
  match e with EvDialectInitialize => True | _ => False end.

(** [e] is a selection of the dialect. *)
Definition selects_dialect (e : event) : bool :=
  match e with EvGetDialect => true | _ => false end.

(** Every event of [Q] in [l] has an event of [P] before it. *)
Definition preceded_by (P Q : event → Prop) (l : list event) : Prop :=
  ∀ j e, l !! j = Some e → Q e → ∃ i e', i < j ∧ l !! i = Some e' ∧ P e'.

(** ** Manual handles, repositories and editor sessions *)

(** The driver call that an operation on the manual handle of [trx] is
    forwarded as. *)
Definition op_event (trx : handle) (op : manual_op) : event :=
  match op with
  | OpCommit => EvCommit trx
  | OpRollback => EvRollback trx
  end.

(** The filters of [repo] agree on [field]: a value that an equality
    filter counts and that contains [value] is among the values of the rows
    [results] that the contains filter on [value] returned. *)
Definition filters_agree (repo : Repository) (field value : string)
    (results : list jsobj) : Prop :=
  ∀ u n, contains_str value u = true →
    count repo (WhereEquals field u) = Ok n → 0 < n →
    JStr u ∈ map (λ row, js_prop row field) results.

(** What happens to a mounted blocks editor: the user changes it through
    Slate (the operations of the change and the state after it), or the
    parent passes another [value] prop from outside. *)
Inductive interaction (V : Type) : Type :=
| UserChange (operations : list BlocksEditor.Operation) (state : V)
| OutsideChange (value : option V).
Global Arguments UserChange {V} operations state.
Global Arguments OutsideChange {V} value.

(** Whether the operations of a change touch the document. *)
Definition is_ast_change (operations : list BlocksEditor.Operation) : bool :=
  existsb (λ op, negb (bool_decide (BlocksEditor.op_type op = "set_selection")))
    operations.

(** A mounted editor: the refs and key of [useResetKey] and the [value]
    prop of the last render. Values of [V] are what React compares the
    prop by: two are equal when they are the same object. *)
Record mounted (V : Type) : Type := mkMounted {
  refs : BlocksEditor.ResetKey;
  prop : option V
}.
Global Arguments mkMounted {V} refs prop.
Global Arguments refs {V} m.
Global Arguments prop {V} m.

(** A render with [value] as prop: the effect of [useResetKey], whose
    dependencies are [[value]], runs when the prop is not the one of the
    render before, and only then. *)
Definition render {V : Type} `{EqDecision V} (value : option V) (m : mounted V) :
    mounted V :=
  if decide (value = prop m) then m
  else mkMounted (BlocksEditor.value_effect (refs m)) value.

(** One interaction with an editor whose parent hands the value of every
    [onChange] back as the [value] prop. *)
Definition interact {V : Type} `{EqDecision V} (name : string) (i : interaction V)
    (m : mounted V) : mounted V * list (BlocksEditor.ChangeEvent V) :=
  match i with
  | UserChange operations state =>
      let '(s', reported) :=
        BlocksEditor.handleSlateChange name operations state (refs m) in
      (match reported with
       | [] => mkMounted s' (prop m)
       | _ => render (Some state) (mkMounted s' (prop m))
       end, reported)
  | OutsideChange value => (render value m, [])
  end.

Fixpoint session {V : Type} `{EqDecision V} (name : string)
    (acts : list (interaction V)) (m : mounted V) :
    mounted V * list (BlocksEditor.ChangeEvent V) :=
  match acts with
  | [] => (m, [])
  | i :: acts =>
      let '(m', reported) := interact name i m in
      let '(m'', reported') := session name acts m' in
      (m'', reported ++ reported')
  end.

Definition is_outside {V : Type} (i : interaction V) : bool :=
  match i with OutsideChange _ => true | UserChange _ _ => false end.

(** Every interaction of the list brings a value that is not the prop at
    that moment: a reported document is a new object, and a change from
    outside is a change. *)
Fixpoint brings_new_values {V : Type} (acts : list (interaction V))
    (current : option V) : Prop :=
  match acts with
  | [] => True
  | UserChange operations state :: acts =>
      if is_ast_change operations
      then Some state ≠ current ∧ brings_new_values acts (Some state)
      else brings_new_values acts current
  | OutsideChange value :: acts => value ≠ current ∧ brings_new_values acts value
  end.

(** The calls of [onChange] that a list of interactions must produce. *)
Definition reports {V : Type} (name : string) (acts : list (interaction V)) :
    list (BlocksEditor.ChangeEvent V) :=
  flat_map (λ i, match i with
                 | UserChange operations state =>
                     if is_ast_change operations
                     then [BlocksEditor.mkChangeEvent name state "blocks"]
                     else []
                 | OutsideChange _ => []
                 end) acts.

(** The value that [generateUIDField] slugifies: the target value when it
    is not empty, else the default of the attribute when that counts as
    true, else the model name. *)
Definition uid_source `{UidLibs} (contentType : ContentType) (attribute : jsobj) (data : jsval) :
    jsval :=
  let targetValue := lodash_get data (js_prop attribute "targetField") in
  if negb (lodash_isEmpty targetValue) then targetValue
  else if js_truthy (js_prop attribute "default") then js_prop attribute "default"
  else modelName contentType.

(** ** Worlds, oracles and callbacks of the concrete runs *)

Definition boom : exn := mkExn Error "boom".

(** The world before anything ran. *)
Definition w_init : world := World None 0 [].

(** A facade without entities and one that stores articles. *)
Definition db_empty : @Database mem_collaborators := mem_database ∅.

Definition db_articles (slugs : list string) : @Database mem_collaborators :=
  mem_database {[ "article" := map (λ s, ({[ "slug" := JStr s ]} : jsobj)) slugs ]}.

(** A hook that records that it ran. *)
Definition note_hook (tag : string) : option (M unit) :=
  Some (ext_call no_faults (EvNote tag) ()).

Definition failed : exn := mkExn Error "callback failed".

(** An oracle under which every commit throws. *)
Definition commit_fails : event → list event → option exn :=
  λ e _, match e with
         | EvCommit _ => Some (mkExn TransactionError "commit failed")
         | _ => None
         end.

(** An oracle under which every rollback throws. *)
Definition rollback_fails : event → list event → option exn :=
  λ e _, match e with
         | EvRollback _ => Some (mkExn TransactionError "rollback failed")
         | _ => None
         end.

(** An oracle under which no transaction can be opened. *)
Definition begin_fails : event → list event → option exn :=
  λ e _, match e with
         | EvBegin _ => Some (mkExn ConnectionError "pool exhausted")
         | _ => None
         end.

(** Stand-ins for the libraries of the UID service: [_.get] reads one
    property, only the empty string counts as empty, and [slugify] keeps a
    string as it is and rejects anything else. *)
Definition stub_libs : UidLibs :=
  {| lodash_get data path :=
       match data, path with
       | JObject o, JStr k => js_prop o k
       | _, _ => JUndefined
       end;
     lodash_isEmpty v :=
       match v with
       | JStr s => bool_decide (s = "")
       | JObject _ => false
       | _ => true
       end;
     slugify v _ :=
       match v with
       | JStr s => Ok s
       | _ => Thrown (mkExn TypeError "Expected a string")
       end |}.

(** The content types of the concrete runs: an article whose [slug] is made
    from its [title]. *)
Definition article_types : gmap string ContentType :=
  {[ "article" :=
       mkContentType (JStr "article")
         {[ "slug" := JObject {[ "targetField" := JStr "title" ]} ]} ]}.

(** ** Tactics *)

(** Settles, for each position [i] of a call that returned, the goal that
    the oracle let it return; the equations on the oracle are in the
    context. *)
Ltac returned_calls i :=
  do 9 (try (destruct i as [|i];
    [simplify_eq/=; rewrite ?app_nil_r, <- ?app_assoc in *; done|]));
  lia.

(** * Properties *)

(** ** [query] *)

Section QueryProperties.
Context `{Collaborators}.

Lemma query_unregistered (db : Database) (uid : string) :
  metadata db !! uid = None →
  query db uid = Thrown (mkExn Error ("Model " +:+ uid +:+ " not found")).
Proof. intros Hnone. unfold query. by rewrite Hnone. Qed.

Lemma query_registered (db : Database) (uid : string) :
  is_Some (metadata db !! uid) →
  query db uid = Ok (getRepository (entityManager db) uid).
Proof.
  intros Hsome. unfold query.
  by rewrite (bool_decide_eq_true_2 _ Hsome).
Qed.

(** C4 (as amended): for a uid that the metadata registry does not hold,
    [query] throws, and never returns a repository; what it throws is a
    plain [Error] with message "Model <uid> not found"; for a registered
    uid it returns the repository the entity manager gives for that uid. *)
Theorem query_spec (db : Database) (uid : string) :
  (metadata db !! uid = None →
     query db uid = Thrown (mkExn Error ("Model " +:+ uid +:+ " not found")) ∧
     ∀ repo, query db uid ≠ Ok repo) ∧
  (is_Some (metadata db !! uid) →
     query db uid = Ok (getRepository (entityManager db) uid)).
Proof.
  split.
  - intros Hnone. rewrite (query_unregistered _ _ Hnone). split; [done|].
    intros repo. discriminate.
  - apply query_registered.
Qed.

End QueryProperties.

(** ** [findUniqueUID] *)

Lemma includes_elem_of (l : list jsval) (s : string) :
  includes l s = true ↔ JStr s ∈ l.
Proof.
  unfold includes. rewrite existsb_exists. split.
  - intros (v & Hin & Hv). apply list_elem_of_In in Hin.
    destruct v; try discriminate.
    apply bool_decide_eq_true_1 in Hv. by subst.
  - intros Hin. exists (JStr s). split; [by apply list_elem_of_In|].
    by apply bool_decide_eq_true_2.
Qed.

Lemma includes_not_elem_of (l : list jsval) (s : string) :
  includes l s = false ↔ JStr s ∉ l.
Proof.
  rewrite <- includes_elem_of. destruct (includes l s); naive_solver.
Qed.

Lemma uid_candidate_inj (value : string) : Inj (=) (=) (uid_candidate value).
Proof.
  intros i j Heq. unfold uid_candidate in Heq.
  apply (inj (String.app value)), (inj (String.app "-")) in Heq.
  by apply (inj pretty) in Heq.
Qed.

Lemma string_length_app (s t : string) :
  String.length (s +:+ t) = String.length s + String.length t.
Proof. induction s as [|a s IH]; simpl; [done|]. by rewrite IH. Qed.

(** A candidate is longer than the value it is made from. *)
Lemma uid_candidate_ne (value : string) (i : nat) : uid_candidate value i ≠ value.
Proof.
  intros Heq. apply (f_equal String.length) in Heq.
  unfold uid_candidate in Heq. rewrite string_length_app in Heq.
  simpl in Heq. lia.
Qed.

(** When the loop gives up, every candidate it tried is taken. *)
Lemma uid_loop_None (l : list jsval) (value : string) (fuel i : nat) :
  uid_loop l value fuel i = None →
  ∀ j, i ≤ j < i + fuel → JStr (uid_candidate value j) ∈ l.
Proof.
  revert i. induction fuel as [|fuel IH]; intros i Hloop j Hj; [lia|].
  simpl in Hloop.
  destruct (includes l (uid_candidate value i)) eqn:Hinc; [|discriminate].
  destruct (decide (j = i)) as [->|Hne].
  - by apply includes_elem_of.
  - apply (IH (S i)); [done|lia].
Qed.

(** What the loop returns is the first free candidate from [i] on. *)
Lemma uid_loop_Some (l : list jsval) (value : string) (fuel i : nat) (s : string) :
  uid_loop l value fuel i = Some s →
  ∃ j, i ≤ j ∧ s = uid_candidate value j ∧
       (JStr (uid_candidate value j) ∉ l) ∧
       (∀ k, i ≤ k < j → JStr (uid_candidate value k) ∈ l).
Proof.
  revert i. induction fuel as [|fuel IH]; intros i Hloop; [discriminate|].
  simpl in Hloop.
  destruct (includes l (uid_candidate value i)) eqn:Hinc.
  - destruct (IH _ Hloop) as (j & Hij & -> & Hfree & Htaken).
    exists j. split; [lia|]. split; [done|]. split; [done|].
    intros k Hk. destruct (decide (k = i)) as [->|Hne].
    + by apply includes_elem_of.
    + apply Htaken. lia.
  - injection Hloop as <-. exists i. split; [done|]. split; [done|].
    split; [by apply includes_not_elem_of|]. intros k Hk. lia.
Qed.

(** Candidates with different counters are different strings, so a list
    holds at most its length many consecutive ones. *)
Lemma taken_candidates_bound (l : list jsval) (value : string) (i n : nat) :
  (∀ j, i ≤ j < i + n → JStr (uid_candidate value j) ∈ l) → n ≤ length l.
Proof.
  intros Htaken.
  set (f := λ j, JStr (uid_candidate value j)).
  assert (Inj (=) (=) f) as Hinj.
  { intros a b Hab. injection Hab as Hab. by apply uid_candidate_inj in Hab. }
  replace n with (length (f <$> seq i n))
    by (by rewrite length_fmap, length_seq).
  apply submseteq_length, NoDup_submseteq.
  - apply (NoDup_fmap_2 f), NoDup_seq.
  - intros x Hx. apply list_elem_of_fmap in Hx as (j & -> & Hj).
    apply elem_of_seq in Hj. by apply Htaken.
Qed.

(** With more fuel than the list is long the loop ends. *)
Lemma uid_loop_terminates (l : list jsval) (value : string) (fuel i : nat) :
  length l < fuel → is_Some (uid_loop l value fuel i).
Proof.
  intros Hfuel. destruct (uid_loop l value fuel i) eqn:Hloop; [by eexists|].
  pose proof (taken_candidates_bound l value i fuel (uid_loop_None _ _ _ _ Hloop)).
  lia.
Qed.

Section UidProperties.
Context `{Collaborators}.

Lemma findUniqueUID_no_rows (fuel : nat) (db : Database)
    (contentTypeUID field value : string) (repo : Repository) :
  query db contentTypeUID = Ok repo →
  findMany repo (WhereContains field value) = Ok [] →
  findUniqueUID fuel db contentTypeUID field value = Some (Ok value).
Proof. intros Hq Hrows. unfold findUniqueUID. by rewrite Hq, Hrows. Qed.

Lemma findUniqueUID_rows (fuel : nat) (db : Database)
    (contentTypeUID field value : string) (repo : Repository) (results : list jsobj) :
  query db contentTypeUID = Ok repo →
  findMany repo (WhereContains field value) = Ok results →
  results ≠ [] →
  length results < fuel →
  ∃ i, 1 ≤ i ∧
    findUniqueUID fuel db contentTypeUID field value
      = Some (Ok (uid_candidate value i)) ∧
    (JStr (uid_candidate value i) ∉ map (λ row, js_prop row field) results) ∧
    (∀ j, 1 ≤ j < i →
       JStr (uid_candidate value j) ∈ map (λ row, js_prop row field) results).
Proof.
  intros Hq Hrows Hne Hfuel. unfold findUniqueUID. rewrite Hq, Hrows.
  cbv zeta. rewrite length_map.
  destruct results as [|row results]; [done|].
  change (length (row :: results) =? 0) with false. cbv iota.
  set (l := map (λ row, js_prop row field) (row :: results)).
  destruct (uid_loop_terminates l value fuel 1) as [s Hs].
  { unfold l. by rewrite length_map. }
  rewrite Hs. simpl.
  destruct (uid_loop_Some _ _ _ _ _ Hs) as (i & Hi & -> & Hfree & Htaken).
  exists i. done.
Qed.

End UidProperties.

(** C6: when the contains-filter query finds no row, [findUniqueUID]
    returns the value as it is; when the values it finds for "post" are
    exactly ["post"], it returns "post-1"; and two creations of the slug
    "post" one after the other, the second run against the rows the first
    left, store "post" and then "post-1". *)
Theorem findUniqueUID_post :
  (∀ `{Collaborators} (fuel : nat) (db : Database) (uid field value : string)
     (repo : Repository),
     query db uid = Ok repo →
     findMany repo (WhereContains field value) = Ok [] →
     findUniqueUID fuel db uid field value = Some (Ok value)) ∧
  (∀ `{Collaborators} (fuel : nat) (db : Database) (uid field : string)
     (repo : Repository) (results : list jsobj),
     query db uid = Ok repo →
     findMany repo (WhereContains field "post") = Ok results →
     map (λ row, js_prop row field) results = [JStr "post"] →
     0 < fuel →
     findUniqueUID fuel db uid field "post" = Some (Ok "post-1")) ∧
  (let tables0 : gmap string (list jsobj) := {[ "article" := [] ]} in
   let first := findUniqueUID 1 (mem_database tables0) "article" "slug" "post" in
   let tables1 := mem_create "article" {[ "slug" := JStr "post" ]} tables0 in
   let second := findUniqueUID 1 (mem_database tables1) "article" "slug" "post" in
   first = Some (Ok "post") ∧ second = Some (Ok "post-1") ∧ first ≠ second).
Proof.
  split; [|split].
  - intros C fuel db uid field value repo. apply findUniqueUID_no_rows.
  - intros C fuel db uid field repo results Hq Hrows Hvalues Hfuel.
    unfold findUniqueUID. rewrite Hq, Hrows. cbv zeta. rewrite Hvalues.
    destruct fuel as [|fuel]; [lia|]. reflexivity.
  - vm_compute. split; [done|]. split; [done|]. discriminate.
Qed.

(** C10: when the contains-filter query finds rows, [findUniqueUID] (given
    fuel for more rounds than there are rows) returns [value-i] for the least
    [i >= 1] whose [value-i] is not among the values found, and that is
    never the value itself, whether or not the value is among them. *)
Theorem findUniqueUID_least_suffix `{Collaborators} (fuel : nat) (db : Database)
    (contentTypeUID field value : string) (repo : Repository) (results : list jsobj) :
  query db contentTypeUID = Ok repo →
  findMany repo (WhereContains field value) = Ok results →
  results ≠ [] →
  length results < fuel →
  ∃ i, 1 ≤ i ∧
    findUniqueUID fuel db contentTypeUID field value
      = Some (Ok (uid_candidate value i)) ∧
    uid_candidate value i ≠ value ∧
    (JStr (uid_candidate value i) ∉ map (λ row, js_prop row field) results) ∧
    (∀ j, 1 ≤ j < i →
       JStr (uid_candidate value j) ∈ map (λ row, js_prop row field) results).
Proof.
  intros Hq Hrows Hne Hfuel.
  destruct (findUniqueUID_rows fuel db contentTypeUID field value repo results)
    as (i & Hi & Hres & Hfree & Htaken); [done..|].
  exists i. split; [done|]. split; [done|]. split; [apply uid_candidate_ne|].
  done.
Qed.

(** ** What a run adds to the trace *)

Section Extends.
Context (P : event → Prop).

Lemma extends_refl w : extends P w w.
Proof. exists []. by rewrite app_nil_r. Qed.

Lemma extends_trans w1 w2 w3 : extends P w1 w2 → extends P w2 w3 → extends P w1 w3.
Proof.
  intros (evs1 & H1 & HP1) (evs2 & H2 & HP2). exists (evs1 ++ evs2).
  split; [by rewrite H2, H1, app_assoc|]. by apply Forall_app.
Qed.

Lemma extends_trace w w' w'' : trace w'' = trace w' → extends P w w' → extends P w w''.
Proof. intros Heq (evs & H1 & HP1). exists evs. by rewrite Heq. Qed.

Lemma extends_from w w' w'' : trace w = trace w' → extends P w w'' → extends P w' w''.
Proof. intros Heq (evs & H1 & HP1). exists evs. by rewrite <- Heq. Qed.

Lemma extends_log e w : P e → extends P w (log e w).
Proof. intros He. exists [e]. split; [done|]. by apply Forall_singleton. Qed.

Lemma sat_ret {A} o (a : A) (Q : A → Prop) : Q a → sat P o (ret a) Q.
Proof.
  intros HQ w Hw. simpl. split; [done|]. split; [apply extends_refl|].
  by intros a' [= <-].
Qed.

Lemma sat_throw {A} o e (Q : A → Prop) : sat P o (throw e) Q.
Proof.
  intros w Hw. simpl. split; [done|]. split; [apply extends_refl|]. done.
Qed.

Lemma sat_weaken {A} o (m : M A) (Q Q' : A → Prop) :
  (∀ a, Q a → Q' a) → sat P o m Q → sat P o m Q'.
Proof.
  intros HQ Hm w Hw. destruct (Hm w Hw) as (Ha & He & Hr).
  split; [done|]. split; [done|]. intros a Hres. by apply HQ, Hr.
Qed.

Lemma sat_bind {A B} o (m : M A) (k : A → M B) (Q : A → Prop) (Q' : B → Prop) :
  sat P o m Q → (∀ a, Q a → sat P o (k a) Q') → sat P o (bind m k) Q'.
Proof.
  intros Hm Hk w Hw. destruct (Hm w Hw) as (Ha & He & Hr). unfold bind.
  destruct (m w) as [[a|e] w1]; simpl in *.
  - destruct (Hk a (Hr a eq_refl) w1 Ha) as (Ha' & He' & Hr').
    split; [done|]. split; [by eapply extends_trans|]. done.
  - split; [done|]. split; [done|]. done.
Qed.

Lemma sat_try_catch {A} o (m : M A) (h : exn → M A) (Q : A → Prop) :
  sat P o m Q → (∀ e, sat P o (h e) Q) → sat P o (try_catch m h) Q.
Proof.
  intros Hm Hh w Hw. destruct (Hm w Hw) as (Ha & He & Hr). unfold try_catch.
  destruct (m w) as [[a|e] w1]; simpl in *.
  - split; [done|]. split; [done|]. done.
  - destruct (Hh e w1 Ha) as (Ha' & He' & Hr').
    split; [done|]. split; [by eapply extends_trans|]. done.
Qed.

Lemma sat_when o (c : bool) (m : M unit) :
  (c = true → sat P o m any) → sat P o (when c m) any.
Proof. destruct c; simpl; [auto|]. intros _. by apply sat_ret. Qed.

Lemma sat_opt_call o (f : option (M unit)) :
  (∀ m, f = Some m → sat P o m any) → sat P o (opt_call f) any.
Proof. destruct f as [m|]; simpl; [auto|]. intros _. by apply sat_ret. Qed.

Lemma sat_as_hook o (m : M jsval) : sat P o m any → sat P o (as_hook m) any.
Proof. intros Hm. eapply sat_bind; [done|]. intros _ _. by apply sat_ret. Qed.

End Extends.

Section Runs.
Context `{Collaborators} (fails : event → list event → option exn).
Context (P : event → Prop).

Lemma sat_ext_call {A} o e (v : A) : P e → sat P o (ext_call fails e v) any.
Proof.
  intros He w Hw. unfold ext_call.
  destruct (fails e (trace w)); simpl;
    (split; [done|]); (split; [by apply extends_log|]); done.
Qed.

Lemma sat_connection_transaction :
  driver_allowed P None → sat P None (connection_transaction fails) any.
Proof.
  intros HP w Hw. unfold connection_transaction.
  destruct (fails (EvBegin (next_handle w)) (trace w)); simpl.
  - split; [done|]. split; [apply extends_refl|]. done.
  - split; [done|]. split; [|done].
    exists [EvBegin (next_handle w)]. split; [done|].
    apply Forall_singleton. by apply HP.
Qed.

Lemma sat_ctx_run {A} o trx (fn : M A) (Q : A → Prop) :
  sat P (Some trx) fn Q → sat P o (ctx_run trx fn) Q.
Proof.
  intros Hfn w Hw. unfold ctx_run.
  destruct (Hfn (set_ambient (Some trx) w) eq_refl) as (Ha & He & Hr).
  destruct (fn (set_ambient (Some trx) w)) as [r w1]; simpl in *.
  split; [done|]. split; [|done].
  eapply extends_trace, extends_from; [| |exact He]; done.
Qed.

End Runs.

(** Induction on user code that also reaches the hooks of a call. *)
Lemma code_ind_hooks (Q : code → Prop) :
  (∀ v, Q (Return v)) →
  (∀ e, Q (Throw e)) →
  (∀ tag, Q (Note tag)) →
  (∀ c k, Q c → (∀ x, Q (k x)) → Q (Seq c k)) →
  (∀ c handler, Q c → (∀ e, Q (handler e)) → Q (TryCatch c handler)) →
  (∀ cb onError onSuccess,
     (∀ trx, Q (cb trx)) →
     (∀ c, onError = Some c → Q c) →
     (∀ c, onSuccess = Some c → Q c) →
     Q (Transaction cb onError onSuccess)) →
  (∀ ops, Q (ManualTransaction ops)) →
  ∀ c, Q c.
Proof.
  intros HRet HThrow HNote HSeq HTry HTx HMan.
  fix IH 1. intros [v|e|tag|c k|c handler|cb onError onSuccess|ops].
  - apply HRet.
  - apply HThrow.
  - apply HNote.
  - apply HSeq; [apply IH|]. intros x. apply IH.
  - apply HTry; [apply IH|]. intros e. apply IH.
  - apply HTx.
    + intros trx. apply IH.
    + destruct onError as [c|]; [|discriminate].
      pose proof (IH c) as Hc. intros c' [= <-]. exact Hc.
    + destruct onSuccess as [c|]; [|discriminate].
      pose proof (IH c) as Hc. intros c' [= <-]. exact Hc.
  - apply HMan.
Qed.

Section Chains.
Context `{Collaborators} (fails : event → list event → option exn) (db : Database).
Context (P : event → Prop).

Lemma sat_ctx_get o : sat P o ctx_get (λ current, current = o).
Proof.
  intros w Hw. simpl. split; [done|]. split; [apply extends_refl|].
  by intros a [= <-].
Qed.

Lemma sat_current_or_new o :
  driver_allowed P o →
  sat P o (match o with
           | None => connection_transaction fails
           | Some trx => ret trx
           end) any.
Proof.
  intros HP. destruct o as [trx|].
  - by apply sat_ret.
  - by apply sat_connection_transaction.
Qed.

Lemma not_nested_None (o : option handle) :
  negb (bool_decide (is_Some o)) = true → o = None.
Proof.
  destruct o as [trx|]; [|done]. intros Hn.
  rewrite (bool_decide_eq_true_2 (is_Some (Some trx))) in Hn; [done|by eexists].
Qed.

Lemma sat_finalize o trx (e : event) :
  is_tx e → driver_allowed P o →
  sat P (Some trx) (when (negb (bool_decide (is_Some o))) (ext_call fails e ())) any.
Proof.
  intros He HP. apply sat_when. intros Hn. apply sat_ext_call.
  apply HP; [by apply not_nested_None|done].
Qed.

Lemma sat_transaction_cb {A} o (cb : handle → M A) (onError onSuccess : option (M unit)) :
  driver_allowed P o →
  (∀ trx, sat P (Some trx) (cb trx) any) →
  (∀ trx m, onError = Some m → sat P (Some trx) m any) →
  (∀ trx m, onSuccess = Some m → sat P (Some trx) m any) →
  sat P o (transaction fails db (Some cb) onError onSuccess) any.
Proof.
  intros HP Hcb HE HS. unfold transaction.
  eapply sat_bind; [apply sat_ctx_get|]. intros current ->.
  eapply sat_bind; [by apply sat_current_or_new|]. intros trx _.
  apply sat_ctx_run, sat_try_catch.
  - eapply sat_bind; [apply Hcb|]. intros res _.
    eapply sat_bind; [by apply sat_finalize|]. intros _ _.
    eapply sat_bind; [apply sat_opt_call, HS|]. intros _ _.
    by apply sat_ret.
  - intros e.
    eapply sat_bind; [by apply sat_finalize|]. intros _ _.
    eapply sat_bind; [apply sat_opt_call, HE|]. intros _ _.
    apply sat_throw.
Qed.

Lemma sat_transaction_manual {A} o (onError onSuccess : option (M unit)) :
  driver_allowed P o →
  sat P o (transaction (A := A) fails db None onError onSuccess)
    (λ r, ∃ t, r = TxManual t ∧ handle_sat P t).
Proof.
  intros HP. unfold transaction.
  eapply sat_bind; [apply sat_ctx_get|]. intros current ->.
  eapply sat_bind; [by apply sat_current_or_new|]. intros trx _.
  apply sat_ret. eexists. split; [done|]. intros o'. simpl.
  split; apply sat_when; intros Hn; apply sat_ext_call;
    (apply HP; [by apply not_nested_None|done]).
Qed.

Lemma sat_run_ops o (t : ManualHandle) (ops : list manual_op) :
  handle_sat P t → sat P o (run_ops t ops) any.
Proof.
  intros Ht. induction ops as [|op ops IH]; simpl; [by apply sat_ret|].
  eapply sat_bind; [|intros _ _; exact IH].
  destruct op; simpl; apply Ht.
Qed.

(** User code adds to the trace its own actions and, where the chain has no
    ambient handle yet, what the facade asks of the driver. *)
Lemma exec_sat (c : code) :
  (∀ tag, P (EvNote tag)) →
  ∀ o, driver_allowed P o → sat P o (exec fails db c) any.
Proof.
  intros HN. induction c as [v|e|tag|c k IHc IHk|c handler IHc IHh
    |cb onError onSuccess IHcb IHE IHS|ops] using code_ind_hooks;
    intros o HP; simpl.
  - by apply sat_ret.
  - apply sat_throw.
  - apply sat_ext_call, HN.
  - eapply sat_bind; [by apply IHc|]. intros x _. by apply IHk.
  - apply sat_try_catch; [by apply IHc|]. intros e. by apply IHh.
  - eapply sat_bind.
    + apply sat_transaction_cb; [done|..].
      * intros trx. by apply IHcb.
      * intros trx m Hm. destruct onError as [c|]; [|done].
        injection Hm as <-. apply sat_as_hook. by eapply IHE.
      * intros trx m Hm. destruct onSuccess as [c|]; [|done].
        injection Hm as <-. apply sat_as_hook. by eapply IHS.
    + intros [t|res] _; by apply sat_ret.
  - eapply sat_bind; [by apply sat_transaction_manual|].
    intros r (t & -> & Ht).
    eapply sat_bind; [by apply sat_run_ops|]. intros _ _. by apply sat_ret.
Qed.

End Chains.

(** ** [transaction] *)

Lemma notes_no_driver_event (evs : list event) :
  Forall is_note evs → List.filter is_driver_event evs = [].
Proof.
  induction 1 as [|e evs He _ IH]; [done|]. simpl. by destruct e.
Qed.

Lemma filter_finalizes_driver (trx : handle) (evs : list event) :
  List.filter (finalizes trx) (List.filter is_driver_event evs)
  = List.filter (finalizes trx) evs.
Proof.
  induction evs as [|e evs IH]; [done|].
  destruct e; simpl; rewrite ?IH; done.
Qed.

Lemma filter_driver_app (l k : list event) :
  List.filter is_driver_event (l ++ k)
  = List.filter is_driver_event l ++ List.filter is_driver_event k.
Proof. apply List.filter_app. Qed.

Section TransactionProperties.
Context `{Collaborators} (fails : event → list event → option exn) (db : Database).

Lemma entered_opened w opened trx w0 :
  entered fails w = Some (opened, trx, w0) →
  ambient w0 = ambient w ∧ (opened = true ↔ ambient w = None) ∧
  (opened = false ↔ ambient w = Some trx).
Proof.
  unfold entered. destruct (ambient w) as [t|] eqn:Ha.
  - intros [= <- <- <-]. rewrite Ha. naive_solver.
  - destruct (fails _ _); [done|]. intros [= <- <- <-]. simpl. naive_solver.
Qed.

Lemma transaction_entered {A} (cb : handle → M A) onError onSuccess w opened trx w0 :
  entered fails w = Some (opened, trx, w0) →
  transaction fails db (Some cb) onError onSuccess w
  = ctx_run trx (transaction_scope fails opened trx cb onError onSuccess) w0.
Proof.
  unfold entered, transaction, bind, ctx_get.
  destruct (ambient w) as [t|] eqn:Ha.
  - intros [= <- <- <-]. reflexivity.
  - unfold connection_transaction. rewrite Ha.
    destruct (fails _ _); [done|]. intros [= <- <- <-]. reflexivity.
Qed.

Lemma transaction_entered_manual {A} onError onSuccess w opened trx w0 :
  entered fails w = Some (opened, trx, w0) →
  transaction (A := A) fails db None onError onSuccess w
  = (Ok (TxManual {| mh_commit := when opened (trx_commit fails trx);
                     mh_rollback := when opened (trx_rollback fails trx);
                     mh_get := trx |}), w0).
Proof.
  unfold entered, transaction, bind, ctx_get.
  destruct (ambient w) as [t|] eqn:Ha.
  - intros [= <- <- <-]. reflexivity.
  - unfold connection_transaction. rewrite Ha.
    destruct (fails _ _); [done|]. intros [= <- <- <-]. reflexivity.
Qed.

Lemma scope_callback_returned {A} opened trx (cb : handle → M A) onError onSuccess
    w res w1 :
  cb trx w = (Ok res, w1) →
  transaction_scope fails opened trx cb onError onSuccess w
  = match when opened (trx_commit fails trx) w1 with
    | (Ok _, w2) =>
        match opt_call onSuccess w2 with
        | (Ok _, w3) => (Ok (TxResult res), w3)
        | (Thrown x, w3) => scope_catch fails opened trx onError x w3
        end
    | (Thrown x, w2) => scope_catch fails opened trx onError x w2
    end.
Proof.
  intros Hcb. unfold transaction_scope, try_catch. unfold bind at 1. rewrite Hcb.
  unfold bind at 1. destruct (when opened _ w1) as [[[]|x] w2]; [|done].
  unfold bind at 1. by destruct (opt_call onSuccess w2) as [[[]|x] w3].
Qed.

Lemma scope_callback_threw {A} opened trx (cb : handle → M A) onError onSuccess
    w e w1 :
  cb trx w = (Thrown e, w1) →
  transaction_scope fails opened trx cb onError onSuccess w
  = scope_catch fails opened trx onError e w1.
Proof.
  intros Hcb. unfold transaction_scope, try_catch. unfold bind at 1. by rewrite Hcb.
Qed.

(** The [catch] block always ends in a failure. *)
Lemma scope_catch_throws {A} opened trx (onError : option (M unit)) (e : exn) (w : world) :
  is_ok (scope_catch (A := A) fails opened trx onError e w).1 = false.
Proof.
  unfold scope_catch, bind. destruct (when opened _ w) as [[[]|x] w1]; [|done].
  by destruct (opt_call onError w1) as [[[]|x] w2].
Qed.

Lemma scope_returns {A} opened trx (cb : handle → M A) onError onSuccess w res w1 :
  cb trx w = (Ok res, w1) →
  (opened = true → fails (EvCommit trx) (trace w1) = None) →
  let w2 := if opened then log (EvCommit trx) w1 else w1 in
  (opt_call onSuccess w2).1 = Ok () →
  transaction_scope fails opened trx cb onError onSuccess w
  = (Ok (TxResult res), (opt_call onSuccess w2).2).
Proof.
  intros Hcb Hcommit w2 Hhook.
  rewrite (scope_callback_returned _ _ _ _ _ _ _ _ Hcb).
  assert (when opened (trx_commit fails trx) w1 = (Ok (), w2)) as ->.
  { unfold w2. destruct opened; [|done]. simpl.
    unfold trx_commit, ext_call. by rewrite Hcommit. }
  destruct (opt_call onSuccess w2) as [r w3]. simpl in Hhook. by subst r.
Qed.

Lemma scope_throws {A} opened trx (cb : handle → M A) onError onSuccess w e w1 :
  cb trx w = (Thrown e, w1) →
  (opened = true → fails (EvRollback trx) (trace w1) = None) →
  let w2 := if opened then log (EvRollback trx) w1 else w1 in
  (opt_call onError w2).1 = Ok () →
  transaction_scope fails opened trx cb onError onSuccess w
  = (Thrown e, (opt_call onError w2).2).
Proof.
  intros Hcb Hrollback w2 Hhook.
  rewrite (scope_callback_threw _ _ _ _ _ _ _ _ Hcb). unfold scope_catch, bind.
  assert (when opened (trx_rollback fails trx) w1 = (Ok (), w2)) as ->.
  { unfold w2. destruct opened; [|done]. simpl.
    unfold trx_rollback, ext_call. by rewrite Hrollback. }
  destruct (opt_call onError w2) as [r w3]. simpl in Hhook. by subst r.
Qed.

(** C2 (as amended): when the callback throws [e], the call invokes
    [rollback] on the handle if and only if it opened the handle itself.
    When that rollback throws, [onError] is not invoked and the caller gets
    the error of the rollback. When it returns (or is not due), [onError]
    is invoked after it: if [onError] returns, the caller gets [e] itself,
    and if [onError] throws, the caller gets what [onError] threw. *)
Theorem transaction_callback_throws {A} (cb : handle → M A)
    (onError onSuccess : option (M unit)) (w : world)
    (opened : bool) (trx : handle) (w0 w1 : world) (e : exn) :
  entered fails w = Some (opened, trx, w0) →
  cb trx (set_ambient (Some trx) w0) = (Thrown e, w1) →
  let w2 := if opened then log (EvRollback trx) w1 else w1 in
  let out := transaction fails db (Some cb) onError onSuccess w in
  (opened = true ↔ ambient w = None) ∧
  trace w2 = trace w1 ++ (if opened then [EvRollback trx] else []) ∧
  (∀ x, opened = true → fails (EvRollback trx) (trace w1) = Some x →
     out = (Thrown x, set_ambient (ambient w) w2)) ∧
  ((opened = true → fails (EvRollback trx) (trace w1) = None) →
     (∀ w3, opt_call onError w2 = (Ok (), w3) →
        out = (Thrown e, set_ambient (ambient w) w3)) ∧
     (∀ x w3, opt_call onError w2 = (Thrown x, w3) →
        out = (Thrown x, set_ambient (ambient w) w3))).
Proof.
  intros Hentered Hcb w2 out.
  destruct (entered_opened _ _ _ _ Hentered) as (Hamb & Hopened & _).
  split; [done|]. split.
  { unfold w2. destruct opened; simpl; [done|]. by rewrite app_nil_r. }
  assert (out = match when opened (trx_rollback fails trx) w1 with
                | (Ok _, w2) =>
                    match opt_call onError w2 with
                    | (Ok _, w3) => (Thrown e, set_ambient (ambient w) w3)
                    | (Thrown x, w3) => (Thrown x, set_ambient (ambient w) w3)
                    end
                | (Thrown x, w2) => (Thrown x, set_ambient (ambient w) w2)
                end) as Hout.
  { unfold out. rewrite (transaction_entered _ _ _ _ _ _ _ Hentered).
    unfold ctx_run. rewrite (scope_callback_threw _ _ _ _ _ _ _ _ Hcb).
    rewrite Hamb. unfold scope_catch, bind.
    destruct (when opened _ w1) as [[[]|x] w2']; [|done].
    by destruct (opt_call onError w2') as [[[]|x] w3]. }
  split.
  - intros x -> Hrollback. rewrite Hout. simpl when.
    unfold trx_rollback, ext_call. by rewrite Hrollback.
  - intros Hrollback.
    assert (when opened (trx_rollback fails trx) w1 = (Ok (), w2)) as Hwhen.
    { unfold w2. destruct opened; [|done]. simpl.
      unfold trx_rollback, ext_call. by rewrite Hrollback. }
    rewrite Hwhen in Hout. split.
    + intros w3 Hhook. by rewrite Hout, Hhook.
    + intros x w3 Hhook. by rewrite Hout, Hhook.
Qed.

(** C3 (as amended): when the callback returns [res], the call invokes
    [commit] on the handle if and only if it opened the handle itself.
    When that commit throws, [onSuccess] is not invoked, the [catch] block
    runs on the error of the commit and the call fails. When it returns
    (or is not due), [onSuccess] is invoked after it: if [onSuccess]
    returns, the caller gets [res], and if [onSuccess] throws, the [catch]
    block runs on what it threw and the call fails. *)
Theorem transaction_callback_returns {A} (cb : handle → M A)
    (onError onSuccess : option (M unit)) (w : world)
    (opened : bool) (trx : handle) (w0 w1 : world) (res : A) :
  entered fails w = Some (opened, trx, w0) →
  cb trx (set_ambient (Some trx) w0) = (Ok res, w1) →
  let w2 := if opened then log (EvCommit trx) w1 else w1 in
  let out := transaction fails db (Some cb) onError onSuccess w in
  let caught x w' :=
    (let '(r, w'') := scope_catch (A := A) fails opened trx onError x w' in
     (r, set_ambient (ambient w) w'')) in
  (opened = true ↔ ambient w = None) ∧
  trace w2 = trace w1 ++ (if opened then [EvCommit trx] else []) ∧
  (∀ x, opened = true → fails (EvCommit trx) (trace w1) = Some x →
     out = caught x w2 ∧ is_ok out.1 = false) ∧
  ((opened = true → fails (EvCommit trx) (trace w1) = None) →
     (∀ w3, opt_call onSuccess w2 = (Ok (), w3) →
        out = (Ok (TxResult res), set_ambient (ambient w) w3)) ∧
     (∀ x w3, opt_call onSuccess w2 = (Thrown x, w3) →
        out = caught x w3 ∧ is_ok out.1 = false)).
Proof.
  intros Hentered Hcb w2 out caught.
  destruct (entered_opened _ _ _ _ Hentered) as (Hamb & Hopened & _).
  split; [done|]. split.
  { unfold w2. destruct opened; simpl; [done|]. by rewrite app_nil_r. }
  assert (∀ x w', is_ok (caught x w').1 = false) as Hcaught.
  { intros x w'. unfold caught.
    pose proof (scope_catch_throws (A := A) opened trx onError x w') as Hthrows.
    by destruct (scope_catch fails opened trx onError x w'). }
  assert (out = (let '(r, w') :=
                   match when opened (trx_commit fails trx) w1 with
                   | (Ok _, w2) =>
                       match opt_call onSuccess w2 with
                       | (Ok _, w3) => (Ok (TxResult res), w3)
                       | (Thrown x, w3) => scope_catch fails opened trx onError x w3
                       end
                   | (Thrown x, w2) => scope_catch fails opened trx onError x w2
                   end in
                 (r, set_ambient (ambient w) w'))) as Hout.
  { unfold out. rewrite (transaction_entered _ _ _ _ _ _ _ Hentered).
    unfold ctx_run. rewrite (scope_callback_returned _ _ _ _ _ _ _ _ Hcb).
    by rewrite Hamb. }
  split.
  - intros x -> Hcommit.
    assert (out = caught x w2) as Heq; [|by rewrite Heq].
    rewrite Hout. simpl when. unfold trx_commit, ext_call. by rewrite Hcommit.
  - intros Hcommit.
    assert (when opened (trx_commit fails trx) w1 = (Ok (), w2)) as Hwhen.
    { unfold w2. destruct opened; [|done]. simpl.
      unfold trx_commit, ext_call. by rewrite Hcommit. }
    rewrite Hwhen in Hout. split.
    + intros w3 Hhook. by rewrite Hout, Hhook.
    + intros x w3 Hhook.
      assert (out = caught x w3) as Heq; [|by rewrite Heq].
      by rewrite Hout, Hhook.
Qed.

End TransactionProperties.

Section TransactionChains.
Context `{Collaborators} (fails : event → list event → option exn) (db : Database).

(** What the [catch] block of a call that opened its handle adds to the
    trace when [onError] leaves the driver alone: one rollback. *)
Lemma scope_catch_trace {A} trx (onError : option (M unit)) (e : exn) (w : world) :
  ambient w = Some trx →
  sat is_note (Some trx) (opt_call onError) any →
  ∃ evs, trace (scope_catch (A := A) fails true trx onError e w).2
         = trace w ++ EvRollback trx :: evs ∧
    Forall is_note evs.
Proof.
  intros Ha HE. unfold scope_catch. unfold bind at 1. simpl when.
  unfold trx_rollback, ext_call.
  destruct (fails (EvRollback trx) (trace w)) as [x|].
  { exists []. done. }
  unfold bind.
  destruct (HE (log (EvRollback trx) w) Ha) as (_ & (n & Ht & Hn) & _).
  exists n. split; [|done].
  destruct (opt_call onError (log (EvRollback trx) w)) as [[[]|x] w3];
    simpl in *; by rewrite Ht, <- app_assoc.
Qed.

(** The driver calls of the scope of a call that opened its handle, when
    callback and hooks leave the driver alone: one commit when the callback
    returned, one rollback when it threw. A run in which the callback
    returned and the call failed all the same is not covered. *)
Lemma scope_opened_trace {A} trx (cb : handle → M A) (onError onSuccess : option (M unit)) w :
  ambient w = Some trx →
  sat is_note (Some trx) (cb trx) any →
  sat is_note (Some trx) (opt_call onError) any →
  sat is_note (Some trx) (opt_call onSuccess) any →
  let inner := cb trx w in
  let out := transaction_scope fails true trx cb onError onSuccess w in
  is_ok out.1 = true ∨ is_ok inner.1 = false →
  ∃ evs, trace out.2 = trace w ++ evs ∧
    List.filter is_driver_event evs
    = [if is_ok inner.1 then EvCommit trx else EvRollback trx].
Proof.
  intros Ha Hcb HE HS. cbv zeta.
  destruct (Hcb w Ha) as (Ha1 & (n1 & Ht1 & Hn1) & _).
  pose proof (notes_no_driver_event _ Hn1) as Hf1.
  destruct (cb trx w) as [[res|e] w1] eqn:Hrun; simpl in Ha1, Ht1.
  - (* the callback returned *)
    rewrite (scope_callback_returned fails _ _ _ _ _ _ _ _ Hrun). simpl when.
    unfold trx_commit, ext_call.
    destruct (fails (EvCommit trx) (trace w1)) as [x|].
    { intros [Hok|Hok]; [|done]. by rewrite scope_catch_throws in Hok. }
    destruct (HS (log (EvCommit trx) w1) Ha1) as (Ha3 & (n3 & Ht3 & Hn3) & _).
    pose proof (notes_no_driver_event _ Hn3) as Hf3.
    destruct (opt_call onSuccess (log (EvCommit trx) w1)) as [[[]|x] w3];
      simpl in Ha3, Ht3.
    + intros _. simpl. exists (n1 ++ [EvCommit trx] ++ n3). split.
      { rewrite Ht3, Ht1. by rewrite <- !app_assoc. }
      rewrite !filter_driver_app, Hf1, Hf3. done.
    + intros [Hok|Hok]; [|done]. by rewrite scope_catch_throws in Hok.
  - (* the callback threw *)
    intros _. rewrite (scope_callback_threw fails _ _ _ _ _ _ _ _ Hrun).
    destruct (scope_catch_trace (A := A) trx onError e w1 Ha1 HE)
      as (n3 & Ht3 & Hn3).
    pose proof (notes_no_driver_event _ Hn3) as Hf3.
    exists (n1 ++ EvRollback trx :: n3). split.
    { rewrite Ht3, Ht1. by rewrite <- !app_assoc. }
    rewrite !filter_driver_app, Hf1. simpl. by rewrite Hf3.
Qed.

Lemma driver_allowed_nested (P : event → Prop) (trx : handle) :
  driver_allowed P (Some trx).
Proof. intros Hnone. discriminate. Qed.

(** Inside a transaction, user code and every call of [transaction] in it
    add nothing but the user's own actions to the trace. *)
Lemma exec_nested (c : code) (trx : handle) : sat is_note (Some trx) (exec fails db c) any.
Proof. apply exec_sat; [done|]. apply driver_allowed_nested. Qed.

Lemma hook_nested (oc : option code) (trx : handle) :
  sat is_note (Some trx)
    (opt_call (match oc with Some c => Some (as_hook (exec fails db c)) | None => None end))
    any.
Proof.
  destruct oc as [c|]; simpl; [|by apply sat_ret].
  apply sat_as_hook, exec_nested.
Qed.

(** A call with callback made by user code, once it has its handle. *)
Lemma exec_transaction_entered (cb : handle → code) (onError onSuccess : option code)
    w opened trx w0 :
  entered fails w = Some (opened, trx, w0) →
  exec fails db (Transaction cb onError onSuccess) w
  = let '(r, w') :=
      transaction_scope fails opened trx (λ t, exec fails db (cb t))
        (match onError with Some c => Some (as_hook (exec fails db c)) | None => None end)
        (match onSuccess with Some c => Some (as_hook (exec fails db c)) | None => None end)
        (set_ambient (Some trx) w0) in
    (match r with
     | Ok (TxResult res) => Ok res
     | Ok (TxManual _) => Ok JUndefined
     | Thrown e => Thrown e
     end, set_ambient (ambient w) w').
Proof.
  intros Hentered. cbn [exec]. unfold bind.
  rewrite (transaction_entered _ _ _ _ _ _ _ _ _ Hentered). unfold ctx_run.
  destruct (entered_opened _ _ _ _ _ Hentered) as (-> & _).
  by destruct (transaction_scope _ _ _ _ _ _ _) as [[[t|res]|x] w'].
Qed.

(** C1 (as amended): in a chain of nested [transaction] calls, a call that
    finds an ambient handle never invokes the driver, so it neither commits
    nor rolls back that handle; and the handle the outermost call opens is
    finalized exactly once, and by that call, whenever that call returns
    or its callback threw: committed in the first case, rolled back in the
    second. (A run in which the callback returned and the call failed
    afterwards is left out.) *)
Theorem transaction_finalized_once :
  (∀ (c : code) (w : world) (trx : handle),
     ambient w = Some trx →
     ∃ evs, trace (exec fails db c w).2 = trace w ++ evs ∧
       List.filter is_driver_event evs = []) ∧
  (∀ (cb : handle → code) (onError onSuccess : option code) (w : world),
     ambient w = None →
     fails (EvBegin (next_handle w)) (trace w) = None →
     let trx := next_handle w in
     let inner :=
       exec fails db (cb trx) (World (Some trx) (S trx) (trace w ++ [EvBegin trx])) in
     let out := exec fails db (Transaction cb onError onSuccess) w in
     is_ok out.1 = true ∨ is_ok inner.1 = false →
     ∃ evs, trace out.2 = trace w ++ evs ∧
       List.filter is_driver_event evs
       = [EvBegin trx; if is_ok inner.1 then EvCommit trx else EvRollback trx] ∧
       length (List.filter (finalizes trx) evs) = 1).
Proof.
  split.
  - intros c w trx Ha.
    destruct (exec_nested c trx w Ha) as (_ & (evs & Ht & Hn) & _).
    exists evs. split; [done|]. by apply notes_no_driver_event.
  - intros cb onError onSuccess w Ha Hbegin trx inner out.
    assert (entered fails w = Some (true, trx,
              World None (S trx) (trace w ++ [EvBegin trx]))) as Hentered.
    { unfold entered. by rewrite Ha, Hbegin. }
    set (w_in := World (Some trx) (S trx) (trace w ++ [EvBegin trx])).
    pose proof (scope_opened_trace trx (λ t, exec fails db (cb t))
      (match onError with Some c => Some (as_hook (exec fails db c)) | None => None end)
      (match onSuccess with Some c => Some (as_hook (exec fails db c)) | None => None end)
      w_in eq_refl (exec_nested _ _) (hook_nested _ _) (hook_nested _ _)) as Hscope.
    cbv zeta in Hscope. fold inner in Hscope.
    unfold out. rewrite (exec_transaction_entered _ _ _ _ _ _ _ Hentered).
    change (set_ambient (Some trx) _) with w_in.
    destruct (transaction_scope _ _ _ _ _ _ w_in) as [r w'] eqn:Hrun.
    simpl in Hscope. simpl fst. simpl snd.
    intros Hcase.
    assert (is_ok r = true ∨ is_ok inner.1 = false) as Hcase'.
    { destruct Hcase as [Hok|Hin]; [left|by right].
      by destruct r as [[t|res]|x]. }
    destruct (Hscope Hcase') as (evs & Ht & Hf).
    exists (EvBegin trx :: evs). split.
    { simpl. rewrite Ht. simpl. by rewrite <- app_assoc. }
    rewrite <- filter_finalizes_driver. simpl. rewrite Hf. split; [done|].
    unfold inner.
    destruct (is_ok (exec fails db (cb trx) w_in).1); simpl; by rewrite Nat.eqb_refl.
Qed.

End TransactionChains.

Section ManualHandles.
Context `{Collaborators} (fails : event → list event → option exn) (db : Database).

(** C5: called without callback, [transaction] returns an object whose
    [get()] is the handle the call works on, the ambient one when there is
    one and else one it opens; [commit()] and [rollback()] of a call that
    opened its handle invoke the handle's commit and rollback, and those of
    a call inside an ambient transaction do nothing. *)
Theorem transaction_manual_handle {A} (onError onSuccess : option (M unit)) (w : world) :
  (∀ trx, ambient w = Some trx →
     ∃ t, transaction (A := A) fails db None onError onSuccess w = (Ok (TxManual t), w) ∧
       mh_get t = trx ∧
       ∀ w', mh_commit t w' = (Ok (), w') ∧ mh_rollback t w' = (Ok (), w')) ∧
  (ambient w = None →
   fails (EvBegin (next_handle w)) (trace w) = None →
     ∃ t, transaction (A := A) fails db None onError onSuccess w
          = (Ok (TxManual t),
             World None (S (next_handle w)) (trace w ++ [EvBegin (next_handle w)])) ∧
       mh_get t = next_handle w ∧
       ∀ w', mh_commit t w' = trx_commit fails (next_handle w) w' ∧
             mh_rollback t w' = trx_rollback fails (next_handle w) w' ∧
             trace (mh_commit t w').2 = trace w' ++ [EvCommit (next_handle w)] ∧
             trace (mh_rollback t w').2 = trace w' ++ [EvRollback (next_handle w)]).
Proof.
  split.
  - intros trx Ha. eexists. split.
    { apply transaction_entered_manual. unfold entered. by rewrite Ha. }
    done.
  - intros Ha Hbegin. eexists. split.
    { apply transaction_entered_manual. unfold entered. by rewrite Ha, Hbegin. }
    split; [done|]. intros w'. simpl.
    unfold trx_commit, trx_rollback, ext_call.
    split; [done|]. split; [done|].
    by split; destruct (fails _ (trace w')).
Qed.

End ManualHandles.

(** ** [destroy] *)

Section DestroyProperties.
Context `{Collaborators} (fails : event → list event → option exn) (db : Database).

(** C8: [destroy] calls [lifecycles.clear()] first and
    [connection.destroy()] after it, once the first has returned; when both
    return it resolves with no value. *)
Theorem destroy_order (w : world) :
  let out := destroy fails db w in
  let cleared := trace w ++ [EvLifecyclesClear] in
  trace out.2
  = trace w ++ EvLifecyclesClear ::
      match fails EvLifecyclesClear (trace w) with
      | Some _ => []
      | None => [EvConnectionDestroy]
      end ∧
  out.1
  = match fails EvLifecyclesClear (trace w) with
    | Some x => Thrown x
    | None =>
        match fails EvConnectionDestroy cleared with
        | Some x => Thrown x
        | None => Ok ()
        end
    end ∧
  ambient out.2 = ambient w.
Proof.
  unfold destroy, bind, ext_call.
  destruct (fails EvLifecyclesClear (trace w)); simpl; [done|].
  destruct (fails EvConnectionDestroy _); simpl; by rewrite <- app_assoc.
Qed.

End DestroyProperties.

(** ** The constructor *)

Lemma forceMigration_no_settings (cfg : jsobj) :
  cfg !! "settings" = None →
  forceMigration (spread_config cfg) = Ok (JBool true).
Proof.
  intros Hnone. unfold forceMigration, spread_config, js_prop.
  rewrite (lookup_union_r _ _ _ Hnone). reflexivity.
Qed.

Lemma forceMigration_supplied (cfg settings : jsobj) (v : jsval) :
  cfg !! "settings" = Some (JObject settings) →
  settings !! "forceMigration" = Some v →
  forceMigration (spread_config cfg) = Ok v.
Proof.
  intros Hsettings Hv. unfold forceMigration, spread_config, js_prop.
  rewrite (lookup_union_Some_l _ _ _ _ Hsettings). simpl.
  unfold js_prop. by rewrite Hv.
Qed.

(** A [settings] object of the caller replaces the default one as a whole. *)
Lemma forceMigration_settings_replaced (cfg settings : jsobj) :
  cfg !! "settings" = Some (JObject settings) →
  forceMigration (spread_config cfg) = Ok (js_prop settings "forceMigration").
Proof.
  intros Hsettings. unfold forceMigration, spread_config, js_prop.
  by rewrite (lookup_union_Some_l _ _ _ _ Hsettings).
Qed.

(** C9 (the code at the failing input): for the configuration
    [{ settings: {} }], which supplies no [forceMigration], the facade is
    built with a [settings.forceMigration] that reads [undefined], not
    [true]. *)
Theorem forceMigration_default_lost :
  let cfg : jsobj := {[ "settings" := JObject ∅ ]} in
  let built := constructor (H := mem_collaborators) no_faults cfg (World None 0 []) in
  forceMigration cfg = Ok JUndefined ∧
  forceMigration (spread_config cfg) = Ok JUndefined ∧
  (∃ db, built.1 = Ok db ∧ forceMigration (config db) = Ok JUndefined) ∧
  forceMigration (spread_config cfg) ≠ Ok (JBool true).
Proof.
  cbv zeta. split; [by vm_compute|]. split; [by vm_compute|]. split.
  - eexists. split; [reflexivity|]. by vm_compute.
  - by vm_compute.
Qed.

Lemma preceded_by_take (P Q : event → Prop) (l : list event) (n : nat) :
  preceded_by P Q l → preceded_by P Q (take n l).
Proof.
  intros Hl j e Hj HQ. apply lookup_take_Some in Hj as [Hj Hn].
  destruct (Hl j e Hj HQ) as (i & e' & Hi & He' & HP).
  exists i, e'. split; [done|]. split; [|done].
  apply lookup_take_Some. split; [done|lia].
Qed.

Lemma select_once_take (l : list event) (n : nat) :
  length (List.filter selects_dialect l) ≤ 1 →
  length (List.filter selects_dialect (take n l)) ≤ 1.
Proof.
  intros Hl. rewrite <- (take_drop n l), List.filter_app, length_app in Hl. lia.
Qed.

Section ConstructorProperties.
Context `{Collaborators} (fails : event → list event → option exn).

Lemma construction_calls_order (cfg : jsobj) :
  preceded_by is_configure is_create_connection (construction_calls cfg) ∧
  preceded_by is_create_connection is_initialize (construction_calls cfg) ∧
  length (List.filter selects_dialect (construction_calls cfg)) = 1.
Proof.
  split; [|split; [|done]].
  - intros j e Hj He.
    destruct j as [|[|[|[|[|[|[|[|[|j]]]]]]]]]; simplify_eq/=; try done.
    exists 2, EvDialectConfigure. split; [lia|]. done.
  - intros j e Hj He.
    destruct j as [|[|[|[|[|[|[|[|[|j]]]]]]]]]; simplify_eq/=; try done.
    eexists 3, _. split; [lia|]. done.
Qed.

(** A construction makes the calls of [construction_calls] in order up to
    the first that throws, each after the one before it returned, and
    returns when none throws. *)
Lemma constructor_trace (cfg : jsobj) (w : world) :
  let out := constructor fails cfg w in
  let spread := spread_config cfg in
  let configured := dialect_configure (getDialect spread) spread in
  ∃ n, trace out.2 = trace w ++ take n (construction_calls cfg) ∧
    (∀ i e, S i < n → construction_calls cfg !! i = Some e →
       fails e (trace w ++ take i (construction_calls cfg)) = None) ∧
    ∀ db, out.1 = Ok db →
      n = 9 ∧ dialect db = getDialect spread ∧ config db = configured ∧
      connection db = createConnection (js_prop configured "connection").
Proof.
  cbv zeta. unfold constructor, bind, ext_call.
  destruct (fails EvCreateMetadata _) eqn:H1; simpl.
  { exists 1. split; [done|]. split; [|done]. intros i ev Hi. lia. }
  destruct (fails EvGetDialect _) eqn:H2; simpl.
  { exists 2. split; [by rewrite <- !app_assoc|]. split; [|done].
    intros i ev Hi Hev. returned_calls i. }
  destruct (fails EvDialectConfigure _) eqn:H3; simpl.
  { exists 3. split; [by rewrite <- !app_assoc|]. split; [|done].
    intros i ev Hi Hev. returned_calls i. }
  destruct (fails (EvCreateConnection _) _) eqn:H4; simpl.
  { exists 4. split; [by rewrite <- !app_assoc|]. split; [|done].
    intros i ev Hi Hev. returned_calls i. }
  destruct (fails EvDialectInitialize _) eqn:H5; simpl.
  { exists 5. split; [by rewrite <- !app_assoc|]. split; [|done].
    intros i ev Hi Hev. returned_calls i. }
  destruct (fails EvCreateSchemaProvider _) eqn:H6; simpl.
  { exists 6. split; [by rewrite <- !app_assoc|]. split; [|done].
    intros i ev Hi Hev. returned_calls i. }
  destruct (fails EvCreateMigrationsProvider _) eqn:H7; simpl.
  { exists 7. split; [by rewrite <- !app_assoc|]. split; [|done].
    intros i ev Hi Hev. returned_calls i. }
  destruct (fails EvCreateLifecyclesProvider _) eqn:H8; simpl.
  { exists 8. split; [by rewrite <- !app_assoc|]. split; [|done].
    intros i ev Hi Hev. returned_calls i. }
  destruct (fails EvCreateEntityManager _) eqn:H9; simpl.
  { exists 9. split; [by rewrite <- !app_assoc|]. split; [|done].
    intros i ev Hi Hev. returned_calls i. }
  exists 9. split; [by rewrite <- !app_assoc|]. split.
  { intros i ev Hi Hev. returned_calls i. }
  by intros db [= <-].
Qed.

(** A construction that fails made the calls of [construction_calls] up
    to one that threw, and fails with what that call threw. *)
Lemma constructor_thrown (cfg : jsobj) (w : world) (x : exn) :
  (constructor fails cfg w).1 = Thrown x →
  ∃ i e, construction_calls cfg !! i = Some e ∧
    trace (constructor fails cfg w).2
    = trace w ++ take (S i) (construction_calls cfg) ∧
    fails e (trace w ++ take i (construction_calls cfg)) = Some x.
Proof.
  unfold constructor, bind, ext_call.
  destruct (fails EvCreateMetadata _) eqn:H1; simpl.
  { intros [= <-]. eexists 0, _. split; [done|]. by rewrite app_nil_r. }
  destruct (fails EvGetDialect _) eqn:H2; simpl.
  { intros [= <-]. eexists 1, _. split; [done|]. by rewrite <- !app_assoc. }
  destruct (fails EvDialectConfigure _) eqn:H3; simpl.
  { intros [= <-]. eexists 2, _. split; [done|]. by rewrite <- !app_assoc in *. }
  destruct (fails (EvCreateConnection _) _) eqn:H4; simpl.
  { intros [= <-]. eexists 3, _. split; [done|]. by rewrite <- !app_assoc in *. }
  destruct (fails EvDialectInitialize _) eqn:H5; simpl.
  { intros [= <-]. eexists 4, _. split; [done|]. by rewrite <- !app_assoc in *. }
  destruct (fails EvCreateSchemaProvider _) eqn:H6; simpl.
  { intros [= <-]. eexists 5, _. split; [done|]. by rewrite <- !app_assoc in *. }
  destruct (fails EvCreateMigrationsProvider _) eqn:H7; simpl.
  { intros [= <-]. eexists 6, _. split; [done|]. by rewrite <- !app_assoc in *. }
  destruct (fails EvCreateLifecyclesProvider _) eqn:H8; simpl.
  { intros [= <-]. eexists 7, _. split; [done|]. by rewrite <- !app_assoc in *. }
  destruct (fails EvCreateEntityManager _) eqn:H9; simpl.
  { intros [= <-]. eexists 8, _. split; [done|]. by rewrite <- !app_assoc in *. }
  done.
Qed.

(** A construction in which no call throws returns. *)
Lemma constructor_returns (cfg : jsobj) (w : world) :
  (∀ i e, construction_calls cfg !! i = Some e →
     fails e (trace w ++ take i (construction_calls cfg)) = None) →
  ∃ db, (constructor fails cfg w).1 = Ok db.
Proof.
  intros Hnone. destruct (constructor fails cfg w).1 as [db|x] eqn:Hout.
  - by exists db.
  - destruct (constructor_thrown cfg w x Hout) as (i & e & Hi & _ & Hfails).
    by rewrite (Hnone i e Hi) in Hfails.
Qed.

End ConstructorProperties.

Section FacadeCalls.
Context `{Collaborators} (fails : event → list event → option exn) (db : Database).
Context (P : event → Prop).
Context (P_note : ∀ tag, P (EvNote tag)) (P_tx : ∀ e, is_tx e → P e).
Context (P_clear : P EvLifecyclesClear) (P_destroy : P EvConnectionDestroy).

Lemma driver_allowed_any (o : option handle) : driver_allowed P o.
Proof. intros _. exact P_tx. Qed.

(** What a call on the facade adds to the trace: actions of the user's
    callbacks, calls of the driver on handles, and the two calls of
    [destroy]. *)
Lemma invoke_sat (c : facade_call) (o : option handle) : sat P o (invoke fails db c) any.
Proof.
  destruct c as [uid|cb onError onSuccess|tableName|trx|uid|]; simpl.
  - intros w Hw. simpl. split; [done|]. split; [apply extends_refl|done].
  - eapply sat_bind; [|intros _ _; by apply sat_ret].
    destruct cb as [cb|].
    + apply sat_transaction_cb; [apply driver_allowed_any|..].
      * intros trx. apply exec_sat; [done|apply driver_allowed_any].
      * intros trx m Hm. destruct onError as [c|]; [|done]. injection Hm as <-.
        apply sat_as_hook, exec_sat; [done|apply driver_allowed_any].
      * intros trx m Hm. destruct onSuccess as [c|]; [|done]. injection Hm as <-.
        apply sat_as_hook, exec_sat; [done|apply driver_allowed_any].
    + eapply sat_weaken; [|apply sat_transaction_manual, driver_allowed_any].
      done.
  - by apply sat_ret.
  - by apply sat_ret.
  - by apply sat_ret.
  - unfold destroy. eapply sat_bind; [by apply sat_ext_call|].
    intros _ _. by apply sat_ext_call.
Qed.

Lemma run_calls_sat (calls : list facade_call) (o : option handle) :
  sat P o (run_calls fails db calls) any.
Proof.
  induction calls as [|c calls IH]; simpl; [by apply sat_ret|].
  eapply sat_bind; [|intros _ _; exact IH].
  apply sat_try_catch; [apply invoke_sat|]. intros e. by apply sat_ret.
Qed.

End FacadeCalls.

Lemma not_selecting_filter (evs : list event) :
  Forall (λ e, selects_dialect e = false) evs →
  List.filter selects_dialect evs = [].
Proof. induction 1 as [|e evs He _ IH]; [done|]. simpl. by rewrite He. Qed.

Section ConstructorOrder.
Context `{Collaborators} (fails : event → list event → option exn).

(** C7: a construction makes its calls in the order of
    [construction_calls], each once the call before it has returned, and
    goes on as long as no call throws: the dialect is selected first, then
    configured, then the connection is created, and only then is the dialect
    initialized. When no call throws the construction returns with all of
    them made; when one throws it ends there with that error. The dialect
    is selected once, the facade holds the dialect selected then, and no
    call made on the facade afterwards selects a dialect again. *)
Theorem constructor_order (cfg : jsobj) (w : world) :
  let out := constructor fails cfg w in
  ∃ evs, trace out.2 = trace w ++ evs ∧
    preceded_by is_configure is_create_connection evs ∧
    preceded_by is_create_connection is_initialize evs ∧
    (∀ i e, is_Some (evs !! S i) → evs !! i = Some e →
       fails e (trace w ++ take i evs) = None) ∧
    length (List.filter selects_dialect evs) ≤ 1 ∧
    ((∀ i e, construction_calls cfg !! i = Some e →
        fails e (trace w ++ take i (construction_calls cfg)) = None) →
     ∃ db, out.1 = Ok db) ∧
    (∀ x, out.1 = Thrown x →
       ∃ i e, construction_calls cfg !! i = Some e ∧
         evs = take (S i) (construction_calls cfg) ∧
         fails e (trace w ++ take i (construction_calls cfg)) = Some x) ∧
    ∀ db, out.1 = Ok db →
      evs = construction_calls cfg ∧
      dialect db = getDialect (spread_config cfg) ∧
      ∀ calls w', ∃ evs',
        trace (run_calls fails db calls w').2 = trace w' ++ evs' ∧
        List.filter selects_dialect evs' = [].
Proof.
  cbv zeta. destruct (constructor_trace fails cfg w) as (n & Htrace & Hret & Hok).
  destruct (construction_calls_order cfg) as (Hconf & Hinit & Hsel).
  exists (take n (construction_calls cfg)). split; [done|].
  split; [by apply preceded_by_take|]. split; [by apply preceded_by_take|].
  split.
  { intros i e [e' Hnext] Hi.
    apply lookup_take_Some in Hnext as [_ Hlt].
    apply lookup_take_Some in Hi as [Hi _].
    rewrite take_take, Nat.min_l by lia. by apply Hret. }
  split; [apply select_once_take; lia|].
  split; [apply constructor_returns|].
  split.
  { intros x Hx. destruct (constructor_thrown fails cfg w x Hx) as (i & e & Hi & Ht & Hf).
    exists i, e. split; [done|]. split; [|done].
    rewrite Htrace in Ht. by apply app_inv_head in Ht. }
  intros db Hdb. destruct (Hok db Hdb) as (-> & Hdialect & _). split; [done|].
  split; [done|]. intros calls w'.
  destruct (run_calls_sat fails db (λ e, selects_dialect e = false)
              (λ _, eq_refl)
              (λ e, match e with
                    | EvBegin _ | EvCommit _ | EvRollback _ => λ _, eq_refl
                    | _ => λ He, False_ind _ He
                    end)
              eq_refl eq_refl calls (ambient w') w' eq_refl)
    as (_ & (evs' & Ht & Hevs) & _).
  exists evs'. split; [done|]. by apply not_selecting_filter.
Qed.

End ConstructorOrder.

(** * Further properties *)

(** ** Failures inside [transaction] *)

Section TransactionFailures.
Context `{Collaborators} (fails : event → list event → option exn) (db : Database).

Lemma transaction_open_failure_eq {A} (cb : option (handle → M A))
    (onError onSuccess : option (M unit)) (w : world) (x : exn) :
  ambient w = None →
  fails (EvBegin (next_handle w)) (trace w) = Some x →
  transaction fails db cb onError onSuccess w = (Thrown x, w).
Proof.
  intros Ha Hbegin. unfold transaction, bind, ctx_get. simpl. rewrite Ha.
  unfold connection_transaction. by rewrite Hbegin.
Qed.

(** X1: when there is no ambient transaction and [connection.transaction()]
    throws, [transaction] fails with that error and leaves the world as it
    was: the callback is not called, no hook is invoked, nothing is
    committed or rolled back. *)
Theorem transaction_open_failure {A} (cb : option (handle → M A))
    (onError onSuccess : option (M unit)) (w : world) (x : exn) :
  ambient w = None →
  fails (EvBegin (next_handle w)) (trace w) = Some x →
  transaction fails db cb onError onSuccess w = (Thrown x, w).
Proof. apply transaction_open_failure_eq. Qed.

(** X2: when the callback of a call that opened its handle throws and the
    rollback throws too, the caller gets the error of the rollback, and
    [onError] is not invoked: the run ends with the call of rollback. *)
Theorem transaction_rollback_failure {A} (cb : handle → M A)
    (onError onSuccess : option (M unit)) (w w0 w1 : world) (trx : handle)
    (e x : exn) :
  entered fails w = Some (true, trx, w0) →
  cb trx (set_ambient (Some trx) w0) = (Thrown e, w1) →
  fails (EvRollback trx) (trace w1) = Some x →
  transaction fails db (Some cb) onError onSuccess w
  = (Thrown x, set_ambient (ambient w) (log (EvRollback trx) w1)).
Proof.
  intros Hentered Hcb Hrollback.
  destruct (entered_opened _ _ _ _ _ Hentered) as (Hamb & _).
  rewrite (transaction_entered _ _ _ _ _ _ _ _ _ Hentered). unfold ctx_run.
  rewrite (scope_callback_threw _ _ _ _ _ _ _ _ _ Hcb).
  unfold scope_catch, bind. simpl when. unfold trx_rollback, ext_call.
  by rewrite Hrollback, Hamb.
Qed.

(** X3: when the callback of a call that opened its handle returns and the
    commit throws [x], [onSuccess] is not invoked and the failure is handled
    like one of the callback: rollback is invoked on the handle, then
    [onError], and the caller gets [x]. *)
Theorem transaction_commit_failure {A} (cb : handle → M A)
    (onError onSuccess : option (M unit)) (w w0 w1 : world) (trx : handle)
    (res : A) (x : exn) :
  entered fails w = Some (true, trx, w0) →
  cb trx (set_ambient (Some trx) w0) = (Ok res, w1) →
  fails (EvCommit trx) (trace w1) = Some x →
  fails (EvRollback trx) (trace w1 ++ [EvCommit trx]) = None →
  let w3 := log (EvRollback trx) (log (EvCommit trx) w1) in
  (opt_call onError w3).1 = Ok () →
  trace w3 = trace w1 ++ [EvCommit trx; EvRollback trx] ∧
  transaction fails db (Some cb) onError onSuccess w
  = (Thrown x, set_ambient (ambient w) (opt_call onError w3).2).
Proof.
  intros Hentered Hcb Hcommit Hrollback w3 Hhook.
  split; [unfold w3; simpl; by rewrite <- app_assoc|].
  destruct (entered_opened _ _ _ _ _ Hentered) as (Hamb & _).
  rewrite (transaction_entered _ _ _ _ _ _ _ _ _ Hentered). unfold ctx_run.
  rewrite (scope_callback_returned _ _ _ _ _ _ _ _ _ Hcb).
  simpl when. unfold trx_commit, ext_call. rewrite Hcommit.
  unfold scope_catch, bind. simpl when. unfold trx_rollback, ext_call.
  simpl trace. rewrite Hrollback. fold w3.
  destruct (opt_call onError w3) as [r w4]. simpl in Hhook. subst r.
  by rewrite Hamb.
Qed.


(** X5: inside an ambient transaction, a call with a callback and no hooks
    is the call of the callback on the ambient handle: same result, same
    error, same effects, and the ambient handle in place afterwards. *)
Theorem transaction_nested_transparent {A} (cb : handle → M A) (w : world)
    (trx : handle) :
  ambient w = Some trx →
  transaction fails db (Some cb) None None w
  = (match (cb trx w).1 with
     | Ok res => Ok (TxResult res)
     | Thrown e => Thrown e
     end, set_ambient (Some trx) (cb trx w).2).
Proof.
  intros Ha.
  assert (entered fails w = Some (false, trx, w)) as Hentered.
  { unfold entered. by rewrite Ha. }
  rewrite (transaction_entered _ _ _ _ _ _ _ _ _ Hentered). unfold ctx_run.
  assert (set_ambient (Some trx) w = w) as ->.
  { destruct w as [a n t]. simpl in Ha. by subst a. }
  rewrite Ha.
  destruct (cb trx w) as [[res|e] w1] eqn:Hcb.
  - by rewrite (scope_callback_returned _ _ _ _ _ _ _ _ _ Hcb).
  - by rewrite (scope_callback_threw _ _ _ _ _ _ _ _ _ Hcb).
Qed.

(** X6: [transaction] leaves the transaction context as it found it,
    however the call ends and with or without callback; so the handle of a
    call without callback does not become ambient, and a call that follows
    one made outside any transaction opens a handle of its own. *)
Theorem transaction_restores_context {A} (cb : option (handle → M A))
    (onError onSuccess : option (M unit)) (w : world) :
  ambient (transaction fails db cb onError onSuccess w).2 = ambient w ∧
  (ambient w = None →
   ∀ t w1, transaction (A := A) fails db None onError onSuccess w = (Ok (TxManual t), w1) →
     ∀ opened trx w2, entered fails w1 = Some (opened, trx, w2) →
       opened = true ∧ trx ≠ mh_get t).
Proof.
  split.
  - destruct (entered fails w) as [[[opened trx] w0]|] eqn:Hentered.
    + destruct (entered_opened _ _ _ _ _ Hentered) as (Hamb & _).
      destruct cb as [cb|].
      * rewrite (transaction_entered _ _ _ _ _ _ _ _ _ Hentered). unfold ctx_run.
        by destruct (transaction_scope _ _ _ _ _ _ _).
      * by rewrite (transaction_entered_manual _ _ _ _ _ _ _ _ Hentered).
    + unfold entered in Hentered. destruct (ambient w) eqn:Ha; [done|].
      destruct (fails _ _) eqn:Hbegin; [|done].
      by rewrite (transaction_open_failure_eq _ _ _ _ _ Ha Hbegin).
  - intros Ha t w1 Hrun opened trx w2 Hnext.
    unfold entered in Hnext. unfold transaction, bind, ctx_get in Hrun.
    simpl in Hrun. rewrite Ha in Hrun. unfold connection_transaction in Hrun.
    destruct (fails (EvBegin (next_handle w)) (trace w)); [done|].
    injection Hrun as <- <-. simpl in Hnext. rewrite Ha in Hnext.
    destruct (fails _ _); [done|]. injection Hnext as <- <- <-.
    split; [done|]. simpl. lia.
Qed.

Lemma run_ops_forwarded (t : ManualHandle) (trx : handle) (ops : list manual_op)
    (w' : world) :
  mh_commit t = trx_commit fails trx →
  mh_rollback t = trx_rollback fails trx →
  (∀ e l, finalizes trx e = true → fails e l = None) →
  run_ops t ops w'
  = (Ok (), World (ambient w') (next_handle w') (trace w' ++ map (op_event trx) ops)).
Proof.
  intros Hcommit Hrollback Hfin.
  revert w'. induction ops as [|op ops IH]; intros w'; simpl.
  { rewrite app_nil_r. by destruct w'. }
  unfold bind.
  assert (run_op t op w' = (Ok (), log (op_event trx op) w')) as ->.
  { destruct op; simpl; rewrite ?Hcommit, ?Hrollback;
      unfold trx_commit, trx_rollback, ext_call;
      rewrite Hfin; simpl; by rewrite ?Nat.eqb_refl. }
  rewrite IH. simpl. by rewrite <- app_assoc.
Qed.

Lemma run_ops_dropped (t : ManualHandle) (ops : list manual_op) (w' : world) :
  mh_commit t = ret () →
  mh_rollback t = ret () →
  run_ops t ops w' = (Ok (), w').
Proof.
  intros Hcommit Hrollback.
  induction ops as [|op ops IH]; simpl; [done|].
  unfold bind. destruct op; simpl; rewrite ?Hcommit, ?Hrollback; apply IH.
Qed.

(** X7: the object of a call without callback that opened its handle
    forwards every [commit()] and [rollback()] to the handle, also a
    repeated one and a rollback after a commit; the object of a call made
    inside an ambient transaction forwards none. *)
Theorem manual_handle_forwards {A} (onError onSuccess : option (M unit))
    (w : world) (ops : list manual_op) (w' : world) :
  (ambient w = None →
   fails (EvBegin (next_handle w)) (trace w) = None →
   (∀ e l, finalizes (next_handle w) e = true → fails e l = None) →
   ∃ t w1, transaction (A := A) fails db None onError onSuccess w = (Ok (TxManual t), w1) ∧
     run_ops t ops w'
     = (Ok (), World (ambient w') (next_handle w')
                 (trace w' ++ map (op_event (next_handle w)) ops))) ∧
  (∀ trx, ambient w = Some trx →
   ∃ t w1, transaction (A := A) fails db None onError onSuccess w = (Ok (TxManual t), w1) ∧
     run_ops t ops w' = (Ok (), w')).
Proof.
  split.
  - intros Ha Hbegin Hfin. eexists _, _. split.
    { apply transaction_entered_manual. unfold entered. by rewrite Ha, Hbegin. }
    by apply run_ops_forwarded.
  - intros trx Ha. eexists _, _. split.
    { apply transaction_entered_manual. unfold entered. by rewrite Ha. }
    by apply run_ops_dropped.
Qed.

End TransactionFailures.

(** ** Failures inside the constructor *)

Section ConstructorFailures.
Context `{Collaborators} (fails : event → list event → option exn).



End ConstructorFailures.

(** ** The configuration *)

(** X9: a property that the caller passes in the configuration reaches
    [this.config] as it is, also one that is [undefined]; [connection] and
    [settings] get their defaults only when the caller passes no property
    of that name; no other property is added. *)
Theorem spread_config_keys (cfg : jsobj) :
  (∀ k v, cfg !! k = Some v → spread_config cfg !! k = Some v) ∧
  (cfg !! "connection" = None → spread_config cfg !! "connection" = Some (JObject ∅)) ∧
  (cfg !! "settings" = None →
     spread_config cfg !! "settings"
     = Some (JObject {[ "forceMigration" := JBool true ]})) ∧
  (∀ k, k ≠ "connection" → k ≠ "settings" → spread_config cfg !! k = cfg !! k).
Proof.
  unfold spread_config. split; [|split; [|split]].
  - intros k v Hk. by apply lookup_union_Some_l.
  - intros Hnone. by rewrite (lookup_union_r _ _ _ Hnone).
  - intros Hnone. by rewrite (lookup_union_r _ _ _ Hnone).
  - intros k Hc Hs. destruct (cfg !! k) as [v|] eqn:Hk.
    + by apply lookup_union_Some_l.
    + rewrite (lookup_union_r _ _ _ Hk). unfold default_config.
      rewrite lookup_insert_ne by done. by rewrite lookup_singleton_ne.
Qed.

(** X10: [settings.forceMigration] of the built configuration is [true]
    when the caller passes no [settings] property, is the caller's value
    when the caller's [settings] object has one, and cannot be read (a
    [TypeError]) when the caller passes [settings: null] or
    [settings: undefined]. *)
Theorem forceMigration_effective (cfg : jsobj) :
  (cfg !! "settings" = None → forceMigration (spread_config cfg) = Ok (JBool true)) ∧
  (∀ settings v, cfg !! "settings" = Some (JObject settings) →
     settings !! "forceMigration" = Some v →
     forceMigration (spread_config cfg) = Ok v) ∧
  (cfg !! "settings" = Some JNull ∨ cfg !! "settings" = Some JUndefined →
     ∃ e, forceMigration (spread_config cfg) = Thrown e ∧ exn_class e = TypeError).
Proof.
  split; [apply forceMigration_no_settings|]. split.
  - intros settings v. apply forceMigration_supplied.
  - intros [Hs|Hs]; unfold forceMigration, spread_config, js_prop;
      rewrite (lookup_union_Some_l _ _ _ _ Hs); simpl; by eexists.
Qed.

(** ** More on the UID service *)

Lemma prefix_app (s t : string) : String.prefix s (s +:+ t) = true.
Proof.
  induction s as [|a s IH]; simpl; [by destruct t|].
  by destruct (Ascii.ascii_dec a a).
Qed.

Lemma contains_str_prefix (s t : string) : contains_str s (s +:+ t) = true.
Proof.
  assert (∀ x, String.prefix s x = true → contains_str s x = true) as Hprefix.
  { intros x Hx. destruct x; cbn [contains_str]; by rewrite Hx. }
  apply Hprefix, prefix_app.
Qed.

Lemma contains_str_refl (s : string) : contains_str s s = true.
Proof.
  assert (∀ x : string, x +:+ "" = x) as Heq.
  { induction x as [|a x IH]; [done|].
    change (String a (x +:+ "") = String a x). by rewrite IH. }
  rewrite <- (Heq s) at 2. apply contains_str_prefix.
Qed.

Section UidResults.
Context `{Collaborators}.

(** What [findUniqueUID] returns, when it returns: the value when nothing
    was found, else a candidate whose counter is at most one more than the
    number of rows; in both cases a string that is not among the values
    found. *)
Lemma findUniqueUID_result (fuel : nat) (db : Database)
    (contentTypeUID field value : string) (repo : Repository)
    (results : list jsobj) (u : string) :
  query db contentTypeUID = Ok repo →
  findMany repo (WhereContains field value) = Ok results →
  findUniqueUID fuel db contentTypeUID field value = Some (Ok u) →
  (JStr u ∉ map (λ row, js_prop row field) results) ∧
  ((results = [] ∧ u = value) ∨
   (∃ i, 1 ≤ i ≤ S (length results) ∧ u = uid_candidate value i)).
Proof.
  intros Hq Hrows. unfold findUniqueUID. rewrite Hq, Hrows. cbv zeta.
  rewrite length_map. destruct results as [|row results].
  { simpl. intros [= <-]. split; [apply not_elem_of_nil|]. by left. }
  change (length (row :: results) =? 0) with false. cbv iota.
  set (l := map (λ row, js_prop row field) (row :: results)).
  destruct (uid_loop l value fuel 1) as [s|] eqn:Hloop; [|done].
  simpl. intros [= <-].
  destruct (uid_loop_Some _ _ _ _ _ Hloop) as (i & Hi & -> & Hfree & Htaken).
  split; [done|]. right. exists i. split; [|done]. split; [done|].
  pose proof (taken_candidates_bound l value 1 (i - 1)) as Hbound.
  unfold l in Hbound at 2. rewrite length_map in Hbound.
  assert (i - 1 ≤ length (row :: results)); [|simpl in *; lia].
  apply Hbound. intros j Hj. apply Htaken. lia.
Qed.

(** X11: the counter of the suffix that [findUniqueUID] appends is at most
    the number of rows its query found plus one, and what it returns is
    never one of the values found. *)
Theorem findUniqueUID_suffix_bound (fuel : nat) (db : Database)
    (contentTypeUID field value : string) (repo : Repository)
    (results : list jsobj) (u : string) :
  query db contentTypeUID = Ok repo →
  findMany repo (WhereContains field value) = Ok results →
  findUniqueUID fuel db contentTypeUID field value = Some (Ok u) →
  (JStr u ∉ map (λ row, js_prop row field) results) ∧
  ((results = [] ∧ u = value) ∨
   (∃ i, 1 ≤ i ≤ S (length results) ∧ u = uid_candidate value i)).
Proof. apply findUniqueUID_result. Qed.

(** X12: for a content type that the metadata registry does not hold,
    [findUniqueUID] and [checkUIDAvailability] both fail with the error of
    [query], "Model <uid> not found"; and a failure of the repository query
    is the failure of [findUniqueUID], whatever the fuel. *)
Theorem uid_service_errors (fuel : nat) (db : Database)
    (contentTypeUID field value : string) :
  (metadata db !! contentTypeUID = None →
     findUniqueUID fuel db contentTypeUID field value
     = Some (Thrown (mkExn Error ("Model " +:+ contentTypeUID +:+ " not found"))) ∧
     checkUIDAvailability db contentTypeUID field value
     = Thrown (mkExn Error ("Model " +:+ contentTypeUID +:+ " not found"))) ∧
  (∀ repo e, query db contentTypeUID = Ok repo →
     findMany repo (WhereContains field value) = Thrown e →
     findUniqueUID fuel db contentTypeUID field value = Some (Thrown e)) ∧
  (∀ repo e, query db contentTypeUID = Ok repo →
     count repo (WhereEquals field value) = Thrown e →
     checkUIDAvailability db contentTypeUID field value = Thrown e).
Proof.
  split; [|split].
  - intros Hnone. unfold findUniqueUID, checkUIDAvailability.
    by rewrite (query_unregistered _ _ Hnone).
  - intros repo e Hq Hrows. unfold findUniqueUID. by rewrite Hq, Hrows.
  - intros repo e Hq Hcount. unfold checkUIDAvailability. by rewrite Hq, Hcount.
Qed.

(** X13: over a repository whose equality and contains filters agree, the
    value that [findUniqueUID] returns is available: [checkUIDAvailability]
    answers [true] for it. *)
Theorem findUniqueUID_available (fuel : nat) (db : Database)
    (contentTypeUID field value : string) (repo : Repository)
    (results : list jsobj) (u : string) (n : nat) :
  query db contentTypeUID = Ok repo →
  findMany repo (WhereContains field value) = Ok results →
  filters_agree repo field value results →
  findUniqueUID fuel db contentTypeUID field value = Some (Ok u) →
  count repo (WhereEquals field u) = Ok n →
  checkUIDAvailability db contentTypeUID field u = Ok true.
Proof.
  intros Hq Hrows Hagree Hres Hcount.
  destruct (findUniqueUID_result _ _ _ _ _ _ _ _ Hq Hrows Hres) as [Hfree Hshape].
  assert (contains_str value u = true) as Hcontains.
  { destruct Hshape as [[_ ->]|(i & _ & ->)].
    - apply contains_str_refl.
    - apply contains_str_prefix. }
  unfold checkUIDAvailability. rewrite Hq, Hcount.
  destruct n as [|n]; [done|].
  destruct Hfree. apply (Hagree u (S n)); [done|done|lia].
Qed.

End UidResults.

(** The repository over stored rows has filters that agree. *)
Lemma table_filters_agree (rows : list jsobj) (field value : string) :
  filters_agree (table_repository rows) field value
    (List.filter (row_matches (WhereContains field value)) rows).
Proof.
  intros u n Hcontains Hcount Hn. simpl in Hcount. injection Hcount as <-.
  destruct (List.filter (row_matches (WhereEquals field u)) rows) as [|row l] eqn:Hf;
    [simpl in Hn; lia|].
  assert (In row (List.filter (row_matches (WhereEquals field u)) rows)) as Hin
    by (rewrite Hf; by left).
  apply filter_In in Hin as [Hin Hmatch]. simpl in Hmatch.
  destruct (js_prop row field) as [| | | |s|] eqn:Hprop; try done.
  apply bool_decide_eq_true_1 in Hmatch. subst s.
  apply list_elem_of_In, in_map_iff. exists row. split; [done|].
  apply filter_In. split; [done|]. simpl. by rewrite Hprop.
Qed.

Section UidGenerationProperties.
Context `{Collaborators} `{UidLibs}.

(** X14: [generateUIDField] fails with a [TypeError] when
    [strapi.contentTypes] has no entry for the content type, or when the
    entry has no attribute of the field's name; it fails before any query,
    so also when the database knows the model. *)
Theorem generateUIDField_unknown (fuel : nat) (contentTypes : gmap string ContentType)
    (db : Database) (contentTypeUID field : string) (data : jsval) :
  (contentTypes !! contentTypeUID = None →
     ∃ e, generateUIDField fuel contentTypes db contentTypeUID field data
          = Some (Thrown e) ∧ exn_class e = TypeError) ∧
  (∀ contentType, contentTypes !! contentTypeUID = Some contentType →
     attributes contentType !! field = None →
     ∃ e, generateUIDField fuel contentTypes db contentTypeUID field data
          = Some (Thrown e) ∧ exn_class e = TypeError).
Proof.
  split.
  - intros Hnone. unfold generateUIDField. rewrite Hnone. by eexists.
  - intros contentType Htype Hattr. unfold generateUIDField, js_prop.
    rewrite Htype, Hattr. simpl. by eexists.
Qed.

(** X15: what [generateUIDField] returns is the slug of the target value,
    when that is not empty, and else of the attribute's default or, without
    one, of the model name; as it is or with a suffix [-i], [i >= 1]; and
    never a value that the contains query for the slug found. *)
Theorem generateUIDField_result (fuel : nat) (contentTypes : gmap string ContentType)
    (db : Database) (contentTypeUID field : string) (data : jsval)
    (contentType : ContentType) (attribute : jsobj) (u : string) :
  contentTypes !! contentTypeUID = Some contentType →
  attributes contentType !! field = Some (JObject attribute) →
  generateUIDField fuel contentTypes db contentTypeUID field data = Some (Ok u) →
  ∃ slug,
    slugify (uid_source contentType attribute data) (js_prop attribute "options")
    = Ok slug ∧
    (u = slug ∨ ∃ i, 1 ≤ i ∧ u = uid_candidate slug i) ∧
    ∀ repo results, query db contentTypeUID = Ok repo →
      findMany repo (WhereContains field slug) = Ok results →
      JStr u ∉ map (λ row, js_prop row field) results.
Proof.
  intros Htype Hattr. unfold generateUIDField, uid_source.
  assert (js_prop (attributes contentType) field = JObject attribute) as Hprop.
  { unfold js_prop. by rewrite Hattr. }
  rewrite Htype. cbv zeta. rewrite Hprop. cbn [js_get].
  set (targetValue := lodash_get data (js_prop attribute "targetField")).
  set (source := if negb (lodash_isEmpty targetValue) then targetValue
                 else if js_truthy (js_prop attribute "default")
                      then js_prop attribute "default" else modelName contentType).
  assert (∀ r, (if negb (lodash_isEmpty targetValue)
                then match slugify targetValue (js_prop attribute "options") with
                     | Ok value => findUniqueUID fuel db contentTypeUID field value
                     | Thrown e => Some (Thrown e)
                     end
                else match slugify (if js_truthy (js_prop attribute "default")
                                    then js_prop attribute "default"
                                    else modelName contentType)
                             (js_prop attribute "options") with
                     | Ok value => findUniqueUID fuel db contentTypeUID field value
                     | Thrown e => Some (Thrown e)
                     end) = r →
               match slugify source (js_prop attribute "options") with
               | Ok value => findUniqueUID fuel db contentTypeUID field value
               | Thrown e => Some (Thrown e)
               end = r) as Hsame.
  { intros r. unfold source. by destruct (negb (lodash_isEmpty targetValue)). }
  intros Hres. apply Hsame in Hres.
  destruct (slugify source (js_prop attribute "options")) as [slug|e]; [|done].
  exists slug. split; [done|].
  assert (∀ repo results, query db contentTypeUID = Ok repo →
            findMany repo (WhereContains field slug) = Ok results →
            (JStr u ∉ map (λ row, js_prop row field) results) ∧
            (u = slug ∨ ∃ i, 1 ≤ i ∧ u = uid_candidate slug i)) as Hboth.
  { intros repo results Hq Hrows.
    destruct (findUniqueUID_result _ _ _ _ _ _ _ _ Hq Hrows Hres) as [Hfree Hshape].
    split; [done|]. destruct Hshape as [[_ ->]|(i & [Hi _] & ->)]; [by left|].
    right. by exists i. }
  split; [|intros repo results Hq Hrows; by apply (Hboth repo results)].
  unfold findUniqueUID in Hres.
  destruct (query db contentTypeUID) as [repo|e] eqn:Hq; [|done].
  destruct (findMany repo (WhereContains field slug)) as [results|e] eqn:Hrows; [|done].
  by apply (Hboth repo results).
Qed.

End UidGenerationProperties.

(** ** The blocks editor *)

(** X16: [pipe] applies its functions from left to right: the pipe of no
    function returns its argument, the pipe of [f] followed by [fs] is the
    pipe of [fs] on the result of [f], so the pipe of one function is that
    function; piping a list that is two lists one after the other is piping
    the second over the result of the first; and what every function of the
    list preserves, the pipe preserves. *)
Theorem pipe_composes {Editor : Type} (fs gs : list (Editor → Editor)) (value : Editor)
    (P : Editor → Prop) :
  BlocksEditor.pipe [] value = value ∧
  (∀ f, BlocksEditor.pipe [f] value = f value) ∧
  (∀ f, BlocksEditor.pipe (f :: fs) value = BlocksEditor.pipe fs (f value)) ∧
  BlocksEditor.pipe (fs ++ gs) value = BlocksEditor.pipe gs (BlocksEditor.pipe fs value) ∧
  (Forall (λ f, ∀ e, P e → P (f e)) fs → P value → P (BlocksEditor.pipe fs value)).
Proof.
  split; [done|]. split; [done|]. split; [done|].
  split; [apply fold_left_app|].
  unfold BlocksEditor.pipe. intros Hfs. revert value.
  induction Hfs as [|f fs Hf _ IH]; intros value Hv; simpl; [done|].
  by apply IH, Hf.
Qed.

Lemma is_ast_change_false (operations : list BlocksEditor.Operation) :
  is_ast_change operations = false ↔
  Forall (λ op, BlocksEditor.op_type op = "set_selection") operations.
Proof.
  unfold is_ast_change. induction operations as [|op ops IH]; simpl.
  { split; [by constructor|done]. }
  rewrite orb_false_iff, IH, Forall_cons, negb_false_iff.
  by rewrite bool_decide_eq_true.
Qed.

(** X17: [handleSlateChange] reports nothing and counts nothing for a
    change all of whose operations are selections, an empty list of
    operations included; for any other change it counts one Slate update
    and calls [onChange] once, with the name, the new state and the type
    [blocks]. *)
Theorem handleSlateChange_reports {V : Type} (name : string)
    (operations : list BlocksEditor.Operation) (state : V) (s : BlocksEditor.ResetKey) :
  (Forall (λ op, BlocksEditor.op_type op = "set_selection") operations →
     BlocksEditor.handleSlateChange name operations state s = (s, [])) ∧
  (¬ Forall (λ op, BlocksEditor.op_type op = "set_selection") operations →
     BlocksEditor.handleSlateChange name operations state s
     = (BlocksEditor.incrementSlateUpdatesCount s,
        [BlocksEditor.mkChangeEvent name state "blocks"])).
Proof.
  unfold BlocksEditor.handleSlateChange. fold (is_ast_change operations).
  split; intros Hops.
  - apply is_ast_change_false in Hops. by rewrite Hops.
  - destruct (is_ast_change operations) eqn:Hast; [done|].
    by apply is_ast_change_false in Hast.
Qed.

Lemma interact_in_sync {V : Type} `{EqDecision V} (name : string) (i : interaction V)
    (acts : list (interaction V)) (m : mounted V) :
  BlocksEditor.slateUpdatesCount (refs m) = BlocksEditor.valueUpdatesCount (refs m) →
  brings_new_values (i :: acts) (prop m) →
  let out := interact name i m in
  BlocksEditor.slateUpdatesCount (refs out.1)
  = BlocksEditor.valueUpdatesCount (refs out.1) ∧
  BlocksEditor.key (refs out.1)
  = BlocksEditor.key (refs m) + (if is_outside i then 1 else 0) ∧
  out.2 = reports name [i] ∧
  brings_new_values acts (prop out.1).
Proof.
  intros Hsync Hnew. destruct m as [[slate value k] current].
  simpl in Hsync. subst value.
  destruct i as [operations state|value]; simpl in *.
  - unfold BlocksEditor.handleSlateChange. fold (is_ast_change operations).
    destruct (is_ast_change operations); simpl.
    + destruct Hnew as [Hne Hnew]. unfold render. simpl.
      rewrite decide_False by done. simpl.
      unfold BlocksEditor.value_effect. simpl.
      rewrite bool_decide_eq_false_2 by (intros Hne'; by apply Hne'). simpl.
      split; [done|]. split; [lia|done].
    + split; [done|]. split; [lia|done].
  - destruct Hnew as [Hne Hnew]. unfold render. simpl.
    rewrite decide_False by done. simpl.
    unfold BlocksEditor.value_effect. simpl.
    rewrite bool_decide_eq_true_2 by lia. simpl.
    split; [done|]. split; [lia|done].
Qed.

(** X18: in a session of an editor whose two counters agree at the start
    (as they do once the effect ran after the first render), and in which
    every reported document and every value from outside is a new value of
    the prop, the key changes by one for each change of the value from
    outside and not at all for changes the user makes in the editor, the
    counters agree again at the end, and [onChange] is called once for each
    user change that touches the document, in order. *)
Theorem session_reset_key {V : Type} `{EqDecision V} (name : string)
    (acts : list (interaction V)) (m : mounted V) :
  BlocksEditor.slateUpdatesCount (refs m) = BlocksEditor.valueUpdatesCount (refs m) →
  brings_new_values acts (prop m) →
  let out := session name acts m in
  BlocksEditor.key (refs out.1)
  = BlocksEditor.key (refs m) + length (List.filter is_outside acts) ∧
  BlocksEditor.slateUpdatesCount (refs out.1)
  = BlocksEditor.valueUpdatesCount (refs out.1) ∧
  out.2 = reports name acts.
Proof.
  revert m. induction acts as [|i acts IH]; intros m Hsync Hnew.
  { simpl. split; [lia|done]. }
  destruct (interact_in_sync name i acts m Hsync Hnew) as (Hsync' & Hkey & Hrep & Hnew').
  cbn [session].
  destruct (interact name i m) as [m' reported]. simpl in Hsync', Hkey, Hrep, Hnew'.
  destruct (IH m' Hsync' Hnew') as (Hkey' & Hsync'' & Hrep').
  destruct (session name acts m') as [m'' reported']. simpl in *.
  split; [|split; [done|]].
  - rewrite Hkey', Hkey. destruct (is_outside i); simpl; lia.
  - rewrite Hrep, Hrep'. unfold reports. simpl. by rewrite app_nil_r.
Qed.

(** When the user's change reports the document that is the prop already,
    no effect runs and the counters part: the next change of the value from
    outside then leaves the key as it is. *)
Lemma session_same_document {V : Type} `{EqDecision V} (name : string)
    (operations : list BlocksEditor.Operation) (state : V) (value : option V)
    (m : mounted V) :
  BlocksEditor.slateUpdatesCount (refs m) = BlocksEditor.valueUpdatesCount (refs m) →
  is_ast_change operations = true →
  prop m = Some state →
  value ≠ Some state →
  BlocksEditor.key
    (refs (session name [UserChange operations state; OutsideChange value] m).1)
  = BlocksEditor.key (refs m).
Proof.
  intros Hsync Hast Hprop Hvalue. destruct m as [[slate v k] current].
  simpl in *. subst v current.
  unfold BlocksEditor.handleSlateChange. fold (is_ast_change operations).
  rewrite Hast. simpl. unfold render. simpl.
  destruct (decide (Some state = Some state)) as [_|Hne]; [simpl|done].
  destruct (decide (value = Some state)) as [Heq|_]; [done|simpl].
  unfold BlocksEditor.value_effect. simpl.
  by rewrite bool_decide_eq_false_2 by (intros Hne; by apply Hne).
Qed.

(** * Concrete runs *)

(** C4, the claim as stated fails: on a facade without entities
    [query("article")] throws an error of class [Error], which is not
    [UnknownModelError]. *)
Lemma query_error_class_counterexample :
  metadata db_empty !! "article" = None ∧
  query db_empty "article" = Thrown (mkExn Error "Model article not found") ∧
  ¬ ∃ e, query db_empty "article" = Thrown e ∧ exn_class e = UnknownModelError.
Proof.
  split; [done|]. split; [done|].
  intros (e & He & Hclass). vm_compute in He. injection He as <-. discriminate.
Qed.

Lemma query_spec_witness :
  query db_empty "article" = Thrown (mkExn Error "Model article not found") ∧
  query (db_articles ["post"]) "article"
  = Ok (getRepository (entityManager (db_articles ["post"])) "article").
Proof.
  split.
  - apply (query_spec db_empty "article"). reflexivity.
  - apply (query_spec (db_articles ["post"]) "article"). vm_compute. by eexists.
Defined.

Lemma findUniqueUID_post_witness :
  findUniqueUID 1 (db_articles []) "article" "slug" "post" = Some (Ok "post") ∧
  findUniqueUID 1 (db_articles ["post"]) "article" "slug" "post" = Some (Ok "post-1").
Proof.
  destruct findUniqueUID_post as (Hnone & Hpost & _). split.
  - eapply (Hnone mem_collaborators); reflexivity.
  - eapply (Hpost mem_collaborators); [reflexivity|reflexivity|reflexivity|lia].
Defined.

(** Only "my-post" is found for "post": the result is "post-1" although
    "post" itself is free. *)
Lemma findUniqueUID_least_suffix_witness :
  ∃ i, 1 ≤ i ∧
    findUniqueUID 2 (db_articles ["my-post"]) "article" "slug" "post"
    = Some (Ok (uid_candidate "post" i)) ∧
    uid_candidate "post" i ≠ "post" ∧
    (JStr (uid_candidate "post" i)
       ∉ map (λ row : jsobj, js_prop row "slug") [{[ "slug" := JStr "my-post" ]}]) ∧
    (∀ j, 1 ≤ j < i →
       JStr (uid_candidate "post" j)
         ∈ map (λ row : jsobj, js_prop row "slug") [{[ "slug" := JStr "my-post" ]}]).
Proof.
  apply (findUniqueUID_least_suffix (H := mem_collaborators) 2
           (db_articles ["my-post"]) "article" "slug" "post"
           (table_repository [{[ "slug" := JStr "my-post" ]}])
           [{[ "slug" := JStr "my-post" ]}]).
  - reflexivity.
  - reflexivity.
  - discriminate.
  - simpl. lia.
Defined.

(** C1, the claim as stated fails: the outermost call commits its handle,
    its [onSuccess] hook throws, and the [catch] block rolls the committed
    handle back, so the driver sees two finalizations of one handle; the
    same when there is no hook and the commit itself throws. *)
Lemma transaction_finalized_twice_counterexample :
  let hooked := Transaction (λ _, Return (JNum 7)) None (Some (Throw boom)) in
  let plain := Transaction (λ _, Return (JNum 7)) None None in
  let out1 := exec no_faults db_empty hooked w_init in
  let out2 := exec commit_fails db_empty plain w_init in
  out1.1 = Thrown boom ∧
  trace out1.2 = [EvBegin 0; EvCommit 0; EvRollback 0] ∧
  length (List.filter (finalizes 0) (trace out1.2)) = 2 ∧
  length (List.filter (finalizes 0) (trace out1.2)) ≠ 1 ∧
  trace out2.2 = [EvBegin 0; EvCommit 0; EvRollback 0] ∧
  length (List.filter (finalizes 0) (trace out2.2)) ≠ 1.
Proof. cbv zeta. repeat split; try done; vm_compute; lia. Qed.

(** A call nested in the callback of another adds no driver call, and the
    outer call commits its handle once. *)
Lemma transaction_finalized_once_witness :
  let inner_call := Transaction (λ _, Note "inner write") None None in
  let nested_world := World (Some 0) 1 [EvBegin 0] in
  (∃ evs, trace (exec no_faults db_empty inner_call nested_world).2
          = trace nested_world ++ evs ∧
     List.filter is_driver_event evs = []) ∧
  (let cb : handle → code := λ _, Seq (Note "outer write") (λ _, inner_call) in
   let out := exec no_faults db_empty (Transaction cb None None) w_init in
   ∃ evs, trace out.2 = trace w_init ++ evs ∧
     List.filter is_driver_event evs = [EvBegin 0; EvCommit 0] ∧
     length (List.filter (finalizes 0) evs) = 1).
Proof.
  cbv zeta.
  destruct (transaction_finalized_once (H := mem_collaborators) no_faults db_empty)
    as [Hnested Houter].
  split.
  - apply (Hnested _ (World (Some 0) 1 [EvBegin 0]) 0). reflexivity.
  - apply (Houter (λ _, Seq (Note "outer write")
                     (λ _, Transaction (λ _, Note "inner write") None None))
             None None w_init); [reflexivity|reflexivity|].
    left. reflexivity.
Defined.

(** C2, the claim as stated fails: the callback throws [failed] and the
    [onError] hook throws [boom]; the caller gets [boom]. And when the
    rollback throws, [onError] is not invoked and the caller gets the error
    of the rollback. *)
Lemma transaction_callback_error_replaced_counterexample :
  let cb : handle → M jsval := λ _, throw failed in
  let out1 := transaction no_faults db_empty (Some cb) (Some (throw boom)) None w_init in
  let out2 := transaction rollback_fails db_empty (Some cb) (note_hook "onError") None w_init in
  out1.1 = Thrown boom ∧ boom ≠ failed ∧
  trace out1.2 = [EvBegin 0; EvRollback 0] ∧
  out2.1 = Thrown (mkExn TransactionError "rollback failed") ∧
  trace out2.2 = [EvBegin 0; EvRollback 0].
Proof. cbv zeta. repeat split; done. Qed.

Lemma transaction_callback_throws_witness :
  let cb : handle → M jsval := λ _, throw failed in
  let nested := World (Some 5) 6 [EvBegin 5] in
  transaction no_faults db_empty (Some cb) (note_hook "onError") None w_init
  = (Thrown failed, World None 1 [EvBegin 0; EvRollback 0; EvNote "onError"]) ∧
  transaction no_faults db_empty (Some cb) (note_hook "onError") None nested
  = (Thrown failed, World (Some 5) 6 [EvBegin 5; EvNote "onError"]) ∧
  transaction no_faults db_empty (Some cb) (Some (throw boom)) None w_init
  = (Thrown boom, World None 1 [EvBegin 0; EvRollback 0]) ∧
  transaction rollback_fails db_empty (Some cb) (note_hook "onError") None w_init
  = (Thrown (mkExn TransactionError "rollback failed"),
     World None 1 [EvBegin 0; EvRollback 0]).
Proof.
  cbv zeta. split; [|split; [|split]].
  - pose proof (transaction_callback_throws (H := mem_collaborators) (A := jsval)
      no_faults db_empty (λ _, throw failed) (note_hook "onError") None w_init
      true 0 (World None 1 [EvBegin 0]) (World (Some 0) 1 [EvBegin 0]) failed
      eq_refl eq_refl) as Hthm.
    cbv zeta in Hthm. destruct Hthm as (_ & _ & _ & Hreturned).
    destruct (Hreturned (λ _, eq_refl)) as [Hok _]. exact (Hok _ eq_refl).
  - pose proof (transaction_callback_throws (H := mem_collaborators) (A := jsval)
      no_faults db_empty (λ _, throw failed) (note_hook "onError") None
      (World (Some 5) 6 [EvBegin 5])
      false 5 (World (Some 5) 6 [EvBegin 5]) (World (Some 5) 6 [EvBegin 5]) failed
      eq_refl eq_refl) as Hthm.
    cbv zeta in Hthm. destruct Hthm as (_ & _ & _ & Hreturned).
    destruct (Hreturned (λ _, eq_refl)) as [Hok _]. exact (Hok _ eq_refl).
  - pose proof (transaction_callback_throws (H := mem_collaborators) (A := jsval)
      no_faults db_empty (λ _, throw failed) (Some (throw boom)) None w_init
      true 0 (World None 1 [EvBegin 0]) (World (Some 0) 1 [EvBegin 0]) failed
      eq_refl eq_refl) as Hthm.
    cbv zeta in Hthm. destruct Hthm as (_ & _ & _ & Hreturned).
    destruct (Hreturned (λ _, eq_refl)) as [_ Hthrown]. exact (Hthrown _ _ eq_refl).
  - pose proof (transaction_callback_throws (H := mem_collaborators) (A := jsval)
      rollback_fails db_empty (λ _, throw failed) (note_hook "onError") None w_init
      true 0 (World None 1 [EvBegin 0]) (World (Some 0) 1 [EvBegin 0]) failed
      eq_refl eq_refl) as Hthm.
    cbv zeta in Hthm. destruct Hthm as (_ & _ & Hrollback & _).
    exact (Hrollback _ eq_refl eq_refl).
Defined.

(** C3, the claim as stated fails: the callback returns 7 and the
    [onSuccess] hook throws [boom]; the call fails with [boom] instead of
    returning 7 (and rolls back the handle it committed). *)
Lemma transaction_callback_result_lost_counterexample :
  let cb : handle → M jsval := λ _, ret (JNum 7) in
  let out := transaction no_faults db_empty (Some cb) None (Some (throw boom)) w_init in
  cb 0 (World (Some 0) 1 [EvBegin 0]) = (Ok (JNum 7), World (Some 0) 1 [EvBegin 0]) ∧
  out.1 = Thrown boom ∧
  out.1 ≠ Ok (TxResult (JNum 7)) ∧
  trace out.2 = [EvBegin 0; EvCommit 0; EvRollback 0].
Proof. cbv zeta. repeat split; done. Qed.

Lemma transaction_callback_returns_witness :
  let cb : handle → M jsval := λ _, ret (JNum 7) in
  let nested := World (Some 5) 6 [EvBegin 5] in
  transaction no_faults db_empty (Some cb) None (note_hook "onSuccess") w_init
  = (Ok (TxResult (JNum 7)),
     World None 1 [EvBegin 0; EvCommit 0; EvNote "onSuccess"]) ∧
  transaction no_faults db_empty (Some cb) None (note_hook "onSuccess") nested
  = (Ok (TxResult (JNum 7)), World (Some 5) 6 [EvBegin 5; EvNote "onSuccess"]) ∧
  is_ok (transaction no_faults db_empty (Some cb) None (Some (throw boom)) w_init).1
  = false ∧
  is_ok (transaction commit_fails db_empty (Some cb) None (note_hook "onSuccess")
           w_init).1
  = false.
Proof.
  cbv zeta. split; [|split; [|split]].
  - pose proof (transaction_callback_returns (H := mem_collaborators) (A := jsval)
      no_faults db_empty (λ _, ret (JNum 7)) None (note_hook "onSuccess") w_init
      true 0 (World None 1 [EvBegin 0]) (World (Some 0) 1 [EvBegin 0]) (JNum 7)
      eq_refl eq_refl) as Hthm.
    cbv zeta in Hthm. destruct Hthm as (_ & _ & _ & Hcommitted).
    destruct (Hcommitted (λ _, eq_refl)) as [Hok _]. exact (Hok _ eq_refl).
  - pose proof (transaction_callback_returns (H := mem_collaborators) (A := jsval)
      no_faults db_empty (λ _, ret (JNum 7)) None (note_hook "onSuccess")
      (World (Some 5) 6 [EvBegin 5])
      false 5 (World (Some 5) 6 [EvBegin 5]) (World (Some 5) 6 [EvBegin 5]) (JNum 7)
      eq_refl eq_refl) as Hthm.
    cbv zeta in Hthm. destruct Hthm as (_ & _ & _ & Hcommitted).
    destruct (Hcommitted (λ _, eq_refl)) as [Hok _]. exact (Hok _ eq_refl).
  - pose proof (transaction_callback_returns (H := mem_collaborators) (A := jsval)
      no_faults db_empty (λ _, ret (JNum 7)) None (Some (throw boom)) w_init
      true 0 (World None 1 [EvBegin 0]) (World (Some 0) 1 [EvBegin 0]) (JNum 7)
      eq_refl eq_refl) as Hthm.
    cbv zeta in Hthm. destruct Hthm as (_ & _ & _ & Hcommitted).
    destruct (Hcommitted (λ _, eq_refl)) as [_ Hthrown].
    exact (proj2 (Hthrown _ _ eq_refl)).
  - pose proof (transaction_callback_returns (H := mem_collaborators) (A := jsval)
      commit_fails db_empty (λ _, ret (JNum 7)) None (note_hook "onSuccess") w_init
      true 0 (World None 1 [EvBegin 0]) (World (Some 0) 1 [EvBegin 0]) (JNum 7)
      eq_refl eq_refl) as Hthm.
    cbv zeta in Hthm. destruct Hthm as (_ & _ & Hcommit & _).
    exact (proj2 (Hcommit _ eq_refl eq_refl)).
Defined.

Lemma transaction_manual_handle_witness :
  (∃ t, transaction (A := jsval) no_faults db_empty None None None
          (World (Some 5) 6 [EvBegin 5])
        = (Ok (TxManual t), World (Some 5) 6 [EvBegin 5]) ∧
     mh_get t = 5 ∧
     ∀ w', mh_commit t w' = (Ok (), w') ∧ mh_rollback t w' = (Ok (), w')) ∧
  (∃ t, transaction (A := jsval) no_faults db_empty None None None w_init
        = (Ok (TxManual t), World None 1 [EvBegin 0]) ∧
     mh_get t = 0 ∧
     ∀ w', mh_commit t w' = trx_commit no_faults 0 w' ∧
           mh_rollback t w' = trx_rollback no_faults 0 w' ∧
           trace (mh_commit t w').2 = trace w' ++ [EvCommit 0] ∧
           trace (mh_rollback t w').2 = trace w' ++ [EvRollback 0]).
Proof.
  split.
  - apply (proj1 (transaction_manual_handle (H := mem_collaborators) (A := jsval)
      no_faults db_empty None None (World (Some 5) 6 [EvBegin 5])) 5).
    reflexivity.
  - apply (proj2 (transaction_manual_handle (H := mem_collaborators) (A := jsval)
      no_faults db_empty None None w_init)); reflexivity.
Defined.

(** ** Runs of the further properties *)

Lemma transaction_open_failure_witness :
  transaction begin_fails db_empty (Some (λ _, ret (JNum 7)))
    (note_hook "onError") (note_hook "onSuccess") w_init
  = (Thrown (mkExn ConnectionError "pool exhausted"), w_init).
Proof.
  apply (transaction_open_failure (H := mem_collaborators) begin_fails db_empty);
    reflexivity.
Defined.

Lemma transaction_rollback_failure_witness :
  transaction rollback_fails db_empty (Some (λ _, throw (A := jsval) failed))
    (note_hook "onError") None w_init
  = (Thrown (mkExn TransactionError "rollback failed"),
     World None 1 [EvBegin 0; EvRollback 0]).
Proof.
  apply (transaction_rollback_failure (H := mem_collaborators) rollback_fails db_empty
           (λ _, throw failed) (note_hook "onError") None w_init
           (World None 1 [EvBegin 0]) (World (Some 0) 1 [EvBegin 0]) 0 failed);
    reflexivity.
Defined.

Lemma transaction_commit_failure_witness :
  transaction commit_fails db_empty (Some (λ _, ret (JNum 7)))
    (note_hook "onError") (note_hook "onSuccess") w_init
  = (Thrown (mkExn TransactionError "commit failed"),
     World None 1 [EvBegin 0; EvCommit 0; EvRollback 0; EvNote "onError"]).
Proof.
  refine (proj2 (transaction_commit_failure (H := mem_collaborators) commit_fails db_empty
           (λ _, ret (JNum 7)) (note_hook "onError") (note_hook "onSuccess") w_init
           (World None 1 [EvBegin 0]) (World (Some 0) 1 [EvBegin 0]) 0 (JNum 7)
           (mkExn TransactionError "commit failed") _ _ _ _ _)); reflexivity.
Defined.


Lemma transaction_nested_transparent_witness :
  let nested := World (Some 5) 6 [EvBegin 5] in
  transaction no_faults db_empty (Some (λ trx, ret (JNum (Z.of_nat trx)))) None None nested
  = (Ok (TxResult (JNum 5)), nested).
Proof.
  apply (transaction_nested_transparent (H := mem_collaborators) no_faults db_empty
           (λ trx, ret (JNum (Z.of_nat trx))) (World (Some 5) 6 [EvBegin 5]) 5).
  reflexivity.
Defined.

(** Two rows hold "post" and "post-1": the result is "post-2", with a
    counter below the bound of three. *)
Lemma findUniqueUID_suffix_bound_witness :
  let rows : list jsobj := [{[ "slug" := JStr "post" ]}; {[ "slug" := JStr "post-1" ]}] in
  (JStr "post-2" ∉ map (λ row : jsobj, js_prop row "slug") rows) ∧
  ((rows = [] ∧ "post-2" = "post") ∨
   (∃ i, 1 ≤ i ≤ S (length rows) ∧ "post-2" = uid_candidate "post" i)).
Proof.
  apply (findUniqueUID_suffix_bound (H := mem_collaborators) 3
           (db_articles ["post"; "post-1"]) "article" "slug" "post"
           (table_repository [{[ "slug" := JStr "post" ]}; {[ "slug" := JStr "post-1" ]}])
           [{[ "slug" := JStr "post" ]}; {[ "slug" := JStr "post-1" ]}] "post-2");
    reflexivity.
Defined.

Lemma findUniqueUID_available_witness :
  checkUIDAvailability (db_articles ["post"; "post-1"]) "article" "slug" "post-2" = Ok true.
Proof.
  apply (findUniqueUID_available (H := mem_collaborators) 3
           (db_articles ["post"; "post-1"]) "article" "slug" "post"
           (table_repository [{[ "slug" := JStr "post" ]}; {[ "slug" := JStr "post-1" ]}])
           (List.filter (row_matches (WhereContains "slug" "post"))
              [{[ "slug" := JStr "post" ]}; {[ "slug" := JStr "post-1" ]}]) "post-2" 0).
  - reflexivity.
  - reflexivity.
  - apply (table_filters_agree
             [{[ "slug" := JStr "post" ]}; {[ "slug" := JStr "post-1" ]}] "slug" "post").
  - reflexivity.
  - reflexivity.
Defined.

(** The title "post" of the data gives the slug "post", which a stored
    article has: the generated value is "post-1". *)
Lemma generateUIDField_result_witness :
  let data := JObject {[ "title" := JStr "post" ]} in
  generateUIDField (H0 := stub_libs) 2 article_types (db_articles ["post"])
    "article" "slug" data = Some (Ok "post-1") ∧
  ∃ slug,
    slugify (UidLibs := stub_libs)
      (uid_source (H := stub_libs) (mkContentType (JStr "article")
                     {[ "slug" := JObject {[ "targetField" := JStr "title" ]} ]})
         {[ "targetField" := JStr "title" ]} data)
      (js_prop {[ "targetField" := JStr "title" ]} "options") = Ok slug ∧
    ("post-1" = slug ∨ ∃ i, 1 ≤ i ∧ "post-1" = uid_candidate slug i) ∧
    ∀ repo results, query (db_articles ["post"]) "article" = Ok repo →
      findMany repo (WhereContains "slug" slug) = Ok results →
      JStr "post-1" ∉ map (λ row : jsobj, js_prop row "slug") results.
Proof.
  cbv zeta. split; [reflexivity|].
  apply (generateUIDField_result (H := mem_collaborators) (H0 := stub_libs) 2
           article_types (db_articles ["post"]) "article" "slug"
           (JObject {[ "title" := JStr "post" ]})
           (mkContentType (JStr "article")
              {[ "slug" := JObject {[ "targetField" := JStr "title" ]} ]})
           {[ "targetField" := JStr "title" ]} "post-1"); reflexivity.
Defined.

(** After the effect of the first render the counters agree and the key is
    1; an edit, a move of the selection and a change from outside later the
    key is 2, and the one edit was reported. *)
Lemma session_reset_key_witness :
  let m := mkMounted (BlocksEditor.value_effect BlocksEditor.useResetKey_init)
             (None : option nat) in
  let acts : list (interaction nat) :=
    [ UserChange [BlocksEditor.mkOperation "insert_text"] 1;
      UserChange [BlocksEditor.mkOperation "set_selection"] 1;
      OutsideChange (Some 2) ] in
  let out := session "content" acts m in
  BlocksEditor.key (refs m) = 1 ∧
  BlocksEditor.key (refs out.1) = 1 + 1 ∧
  BlocksEditor.slateUpdatesCount (refs out.1)
  = BlocksEditor.valueUpdatesCount (refs out.1) ∧
  out.2 = [BlocksEditor.mkChangeEvent "content" 1 "blocks"].
Proof.
  cbv zeta. split; [reflexivity|].
  apply (session_reset_key "content"
           [ UserChange [BlocksEditor.mkOperation "insert_text"] 1;
             UserChange [BlocksEditor.mkOperation "set_selection"] 1;
             OutsideChange (Some 2) ]
           (mkMounted (BlocksEditor.value_effect BlocksEditor.useResetKey_init) None)).
  - reflexivity.
  - simpl. split; [discriminate|]. split; [discriminate|done].
Defined.

(** ** A construction that returns *)

Lemma constructor_order_witness :
  ∃ db, (constructor (H := mem_collaborators) no_faults ∅ w_init).1 = Ok db ∧
    trace (constructor (H := mem_collaborators) no_faults ∅ w_init).2
    = construction_calls (H := mem_collaborators) ∅.
Proof.
  destruct (constructor_order (H := mem_collaborators) no_faults ∅ w_init)
    as (evs & Htrace & _ & _ & _ & _ & Hreturns & _ & Hok).
  destruct (Hreturns (λ _ _ _, eq_refl)) as [db Hdb].
  exists db. split; [done|]. rewrite Htrace.
  by destruct (Hok db Hdb) as (-> & _).
Defined.
